(** * Modbus Manager: verification of the filtering, validation and write paths

    A shallow embedding of the parts of the Home Assistant "modbus_manager"
    integration that its specification makes checkable statements about:

    - [template_loader.py]: [_evaluate_condition], [_evaluate_single_condition],
      [validate_register_data], [validate_control_settings],
      [validate_and_process_register], and the firmware gate of
      [_should_include_sensor];
    - [config_flow.py]: the firmware gate of [_should_include_sensor],
      [_find_applicable_firmware_version];
    - [number.py]: [async_set_native_value];
    - the range optimizer of the specification (its module,
      [register_optimizer.py], is imported by [__init__.py]).

    Python strings are lists of characters; a character is a code point
    below 256, so the whitespace, case and printability tables below are the
    ones Python uses on that range. *)

From Stdlib Require Import ZArith List Ascii String Bool Lia DecimalString.
From Stdlib Require Import PrimFloat FloatOps SpecFloat.
From stdpp Require Import gmap strings.
Import ListNotations.

Set Warnings "-register-all".
Local Open Scope Z_scope.
Local Open Scope list_scope.

(** ** Python strings *)

Module PyStr.

Definition pystr := list ascii.

(** String literals are written [py "text"]. *)
Definition py (s : string) : pystr := list_ascii_of_string s.
Arguments py s%_string.

Definition code (c : ascii) : nat := nat_of_ascii c.

Definition chr_eqb (a b : ascii) : bool := Ascii.eqb a b.

Fixpoint str_eqb (a b : pystr) : bool :=
  match a, b with
  | [], [] => true
  | x :: a', y :: b' => chr_eqb x y && str_eqb a' b'
  | _, _ => false
  end.

(** [str.isspace] on code points below 256: TAB..CR, FS..US, space, NEL and
    the no-break space. *)
Definition is_space (c : ascii) : bool :=
  let n := code c in
  ((9 <=? n) && (n <=? 13) || (28 <=? n) && (n <=? 32) || (n =? 133) || (n =? 160))%nat.

Definition is_digit (c : ascii) : bool :=
  let n := code c in ((48 <=? n) && (n <=? 57))%nat.

Definition digit_val (c : ascii) : Z := Z.of_nat (code c) - 48.

(** The single quote and the double quote (code points 39 and 34). *)
Definition squote : ascii := ascii_of_nat 39.
Definition dquote : ascii := ascii_of_nat 34.

Definition is_quote (c : ascii) : bool := chr_eqb c squote || chr_eqb c dquote.

(** [s.lstrip(chars)], [s.rstrip(chars)], [s.strip(chars)] with the set of
    characters given as a predicate. *)
Fixpoint lstrip_by (p : ascii -> bool) (s : pystr) : pystr :=
  match s with
  | [] => []
  | c :: r => if p c then lstrip_by p r else s
  end.

Definition rstrip_by (p : ascii -> bool) (s : pystr) : pystr :=
  rev (lstrip_by p (rev s)).

Definition strip_by (p : ascii -> bool) (s : pystr) : pystr :=
  rstrip_by p (lstrip_by p s).

(** [s.strip()] *)
Definition strip (s : pystr) : pystr := strip_by is_space s.

(** [s.strip(chars)] where [chars] holds the two quote characters. *)
Definition strip_quotes (s : pystr) : pystr := strip_by is_quote s.

(** [s.startswith(p)] *)
Fixpoint startswith (s p : pystr) {struct p} : bool :=
  match p, s with
  | [], _ => true
  | a :: p', b :: s' => chr_eqb a b && startswith s' p'
  | _ :: _, [] => false
  end.

(** [s.endswith(p)] *)
Definition endswith (s p : pystr) : bool := startswith (rev s) (rev p).

(** [sub in s] *)
Fixpoint contains (sub s : pystr) : bool :=
  startswith s sub ||
  match s with
  | [] => false
  | _ :: r => contains sub r
  end.

(** [s.split(sep)] for a non-empty separator: occurrences are taken from the
    left and do not overlap.  [skip] counts the characters of a separator
    still to be passed over, [cur] is the part being collected, reversed. *)
Fixpoint split_go (sep : pystr) (skip : nat) (cur : pystr) (s : pystr) : list pystr :=
  match s with
  | [] => [rev cur]
  | c :: r =>
      match skip with
      | S k => split_go sep k cur r
      | O =>
          if startswith s sep
          then rev cur :: split_go sep (length sep - 1) [] r
          else split_go sep 0 (c :: cur) r
      end
  end.

Definition split (sep s : pystr) : list pystr := split_go sep 0 [] s.

(** [s[1:-1]] *)
Definition slice_1_m1 (s : pystr) : pystr := removelast (tl s).

(** [s[:n]] and [s[n:]] for a non-negative index [n]. *)
Definition slice_to (s : pystr) (n : Z) : pystr := firstn (Z.to_nat n) s.
Definition slice_from (s : pystr) (n : Z) : pystr := skipn (Z.to_nat n) s.

(** [s.lower()] on code points below 256: A-Z and the accented capitals
    (192..222 except the multiplication sign 215) move up by 32. *)
Definition lower_chr (c : ascii) : ascii :=
  let n := code c in
  if ((65 <=? n) && (n <=? 90) ||
      (192 <=? n) && (n <=? 222) && negb (n =? 215))%nat
  then ascii_of_nat (n + 32) else c.

Definition lower (s : pystr) : pystr := map lower_chr s.

(** [int(s)] for a string: surrounding whitespace, an optional sign, decimal
    digits, single underscores between digits.  [None] is [ValueError].
    (The interpreter's configurable limit on the number of digits is not
    modelled.) *)
Fixpoint parse_digits (acc : Z) (prev_digit : bool) (s : pystr) : option Z :=
  match s with
  | [] => if prev_digit then Some acc else None
  | c :: r =>
      if is_digit c then parse_digits (acc * 10 + digit_val c) true r
      else if chr_eqb c "_"%char
           then if prev_digit then parse_digits acc false r else None
           else None
  end.

Definition int_of_str (s : pystr) : option Z :=
  match strip s with
  | c :: r =>
      if chr_eqb c "+"%char then parse_digits 0 false r
      else if chr_eqb c "-"%char then option_map Z.opp (parse_digits 0 false r)
      else parse_digits 0 false (c :: r)
  | [] => None
  end.

(** [str(n)] for an integer. *)
Definition str_of_int (z : Z) : pystr := py (NilZero.string_of_int (Z.to_int z)).

(** [sep.join(parts)] *)
Fixpoint join (sep : pystr) (parts : list pystr) : pystr :=
  match parts with
  | [] => []
  | [p] => p
  | p :: rest => p ++ sep ++ join sep rest
  end.

(** [a] occurs in [b] as a contiguous piece. *)
Definition substring_of (a b : pystr) : Prop := exists l r, b = l ++ a ++ r.

End PyStr.
Import PyStr.

(** ** Configuration values *)

Module PyVal.

(** The values a configuration map holds: [None], booleans, integers,
    strings and lists of such values. *)
Inductive value :=
| VNone
| VBool (b : bool)
| VInt (z : Z)
| VStr (s : pystr)
| VList (items : list value).

(** [dynamic_config]: a dictionary with string keys. *)
Abbreviation config := (gmap string value).

Definition key (name : pystr) : string := string_of_list_ascii name.

(** [d.get(name)] and [d.get(name, default)] *)
Definition dict_get (d : config) (name : pystr) : value :=
  match d !! key name with
  | Some v => v
  | None => VNone
  end.

Definition dict_get_default (d : config) (name : pystr) (default : value) : value :=
  match d !! key name with
  | Some v => v
  | None => default
  end.

(** [repr] of a string.  A character is printable when it is neither a
    control character nor the no-break space nor the soft hyphen. *)
Definition is_printable (c : ascii) : bool :=
  let n := code c in
  ((32 <=? n) && (n <? 127) || (161 <=? n) && negb (n =? 173))%nat.

Definition hex_digit (n : nat) : ascii :=
  nth n (py "0123456789abcdef") "0"%char.

Definition repr_chr (quote c : ascii) : pystr :=
  let n := code c in
  if chr_eqb c quote || chr_eqb c "\"%char then ["\"%char; c]
  else if (n =? 9)%nat then py "\t"
  else if (n =? 10)%nat then py "\n"
  else if (n =? 13)%nat then py "\r"
  else if is_printable c then [c]
  else py "\x" ++ [hex_digit (n / 16); hex_digit (n mod 16)].

Definition repr_str (s : pystr) : pystr :=
  let quote :=
    if contains [squote] s && negb (contains [dquote] s) then dquote else squote in
  [quote] ++ concat (map (repr_chr quote) s) ++ [quote].

(** [repr(v)] and [str(v)] *)
Fixpoint py_repr (v : value) : pystr :=
  match v with
  | VNone => py "None"
  | VBool true => py "True"
  | VBool false => py "False"
  | VInt z => str_of_int z
  | VStr s => repr_str s
  | VList items => py "[" ++ join (py ", ") (map py_repr items) ++ py "]"
  end.

Definition py_str (v : value) : pystr :=
  match v with
  | VStr s => s
  | _ => py_repr v
  end.

(** [bool(v)] *)
Definition py_bool (v : value) : bool :=
  match v with
  | VNone => false
  | VBool b => b
  | VInt z => negb (z =? 0)
  | VStr s => negb (str_eqb s [])
  | VList items => match items with [] => false | _ => true end
  end.

(** [int(v)]; [None] stands for the [ValueError] (a string that is not an
    integer literal) or [TypeError] ([None], a list) it raises. *)
Definition py_int (v : value) : option Z :=
  match v with
  | VNone => None
  | VBool b => Some (Z.b2z b)
  | VInt z => Some z
  | VStr s => int_of_str s
  | VList _ => None
  end.

End PyVal.
Import PyVal.

(** ** The condition evaluator ([template_loader.py]) *)

Module Cond.

(** What a call produces: a boolean, or a [TypeError] that no handler of the
    evaluator catches. *)
Inductive outcome :=
| Ret (b : bool)
| RaiseTypeError.

(** Python's [a or b] and [a and b] on calls that return booleans: the right
    operand is evaluated only when the left one does not decide. *)
Definition or_else (a : outcome) (b : option outcome) : option outcome :=
  match a with
  | Ret true => Some (Ret true)
  | Ret false => b
  | RaiseTypeError => Some RaiseTypeError
  end.

Definition and_then (a : outcome) (b : option outcome) : option outcome :=
  match a with
  | Ret true => b
  | Ret false => Some (Ret false)
  | RaiseTypeError => Some RaiseTypeError
  end.

(** The list comprehension that reads the bracketed value list of an
    [in] / [not in] condition. *)
Definition required_values_of (required_values_str : pystr) : list pystr :=
  let required_values_str :=
    if startswith required_values_str (py "[") && endswith required_values_str (py "]")
    then slice_1_m1 required_values_str
    else required_values_str in
  map (fun value => strip_quotes (strip value))
      (filter (fun value => negb (str_eqb (strip value) []))
              (split (py ",") required_values_str)).

Definition str_in (x : pystr) (l : list pystr) : bool := existsb (str_eqb x) l.

(** The [result] of the [in] branch: for a list-valued option, whether any
    required value is among the stringified items; otherwise whether the
    stringified option is among the required values. *)
Definition member_result (actual_value : value) (required_values : list pystr) : bool :=
  match actual_value with
  | VList items =>
      let actual_values := map py_str items in
      existsb (fun value => str_in value actual_values) required_values
  | _ => str_in (py_str actual_value) required_values
  end.

(** [actual_value == required_value] after the coercions of the [==] and
    [!=] branches. *)
Definition is_bool_literal (required_value_str : pystr) : bool :=
  str_in (lower required_value_str) [py "true"; py "false"].

Definition str_or_empty (actual_value : value) : pystr :=
  match actual_value with
  | VNone => []
  | _ => py_str actual_value
  end.

Definition coerced_equal (actual_value : value) (required_value_str : pystr) : bool :=
  if is_bool_literal required_value_str then
    let required_value := str_eqb (lower required_value_str) (py "true") in
    let actual_value :=
      match actual_value with VNone => false | _ => py_bool actual_value end in
    Bool.eqb actual_value required_value
  else
    match int_of_str required_value_str with
    | Some required_value =>
        match (match actual_value with VNone => Some 0 | _ => py_int actual_value end) with
        | Some actual_int => actual_int =? required_value
        | None => str_eqb (str_or_empty actual_value) required_value_str
        end
    | None => str_eqb (str_or_empty actual_value) required_value_str
    end.

(** The [>=] and [>] branches, [cmp] being the comparison on integers. *)
Definition threshold_result (cmp : Z -> Z -> bool)
    (dynamic_config : config) (variable_name required_value_str : pystr) : outcome :=
  match int_of_str required_value_str with
  | None => Ret false
  | Some required_value =>
      match dict_get_default dynamic_config variable_name (VInt 0) with
      | VStr s =>
          match int_of_str s with
          | Some actual_value => Ret (cmp actual_value required_value)
          | None => Ret false
          end
      | VInt actual_value => Ret (cmp actual_value required_value)
      | VBool b => Ret (cmp (Z.b2z b) required_value)
      | VNone | VList _ => RaiseTypeError
      end
  end.

Definition _evaluate_single_condition (condition : pystr) (dynamic_config : config) : outcome :=
  let condition := strip condition in
  if contains (py " not in ") condition then
    match split (py " not in ") condition with
    | [p0; p1] =>
        let variable_name := strip p0 in
        let actual_value := dict_get dynamic_config variable_name in
        Ret (negb (member_result actual_value (required_values_of (strip p1))))
    | _ => Ret true
    end
  else if contains (py " in ") condition then
    match split (py " in ") condition with
    | [p0; p1] =>
        let variable_name := strip p0 in
        let actual_value := dict_get dynamic_config variable_name in
        Ret (member_result actual_value (required_values_of (strip p1)))
    | _ => Ret true
    end
  else if contains (py "!=") condition then
    match split (py "!=") condition with
    | [p0; p1] =>
        let variable_name := strip p0 in
        let required_value_str := strip_quotes (strip p1) in
        let actual_value := dict_get dynamic_config variable_name in
        Ret (negb (coerced_equal actual_value required_value_str))
    | _ => Ret true
    end
  else if contains (py "==") condition then
    match split (py "==") condition with
    | [p0; p1] =>
        let variable_name := strip p0 in
        let required_value_str := strip_quotes (strip p1) in
        let actual_value := dict_get dynamic_config variable_name in
        Ret (coerced_equal actual_value required_value_str)
    | _ => Ret true
    end
  else if contains (py ">=") condition then
    match split (py ">=") condition with
    | [p0; p1] => threshold_result Z.geb dynamic_config (strip p0) (strip p1)
    | _ => Ret true
    end
  else if contains (py ">") condition then
    match split (py ">") condition with
    | [p0; p1] => threshold_result Z.gtb dynamic_config (strip p0) (strip p1)
    | _ => Ret true
    end
  else Ret true.

(** The operator tokens in the order in which [_evaluate_single_condition]
    looks for them, and the first one a condition contains. *)
Definition operator_tokens : list pystr :=
  [py " not in "; py " in "; py "!="; py "=="; py ">="; py ">"].

Definition has_operator_token (condition : pystr) : bool :=
  existsb (fun op => contains op condition) operator_tokens.

Definition first_operator (condition : pystr) : option pystr :=
  List.find (fun op => contains op condition) operator_tokens.

(** A condition has the shape of a comparison when the first operator token
    it contains splits it into exactly two parts. *)
Definition is_comparison (condition : pystr) : bool :=
  match first_operator (strip condition) with
  | Some op => (length (split op (strip condition)) =? 2)%nat
  | None => false
  end.

(** A well-formed comparison of the supported forms
    (variable == value, variable != value, variable >= integer,
    variable > integer, variable in [...], variable not in [...]). *)
Definition well_formed_comparison (condition : pystr) : bool :=
  match first_operator (strip condition) with
  | Some op =>
      match split op (strip condition) with
      | [_; p1] =>
          if str_in op [py ">="; py ">"]
          then match int_of_str (strip p1) with Some _ => true | None => false end
          else true
      | _ => false
      end
  | None => false
  end.

(** The [for] loop inside the parenthesis-removing [while] loop: [true] when
    the opening parenthesis at index 0 is closed only by the last character
    ([is_outer]).  [rest] being empty is [i = len(condition) - 1]. *)
Fixpoint is_outer_from (depth : Z) (s : pystr) : bool :=
  match s with
  | [] => true
  | char :: rest =>
      if chr_eqb char "("%char then is_outer_from (depth + 1) rest
      else if chr_eqb char ")"%char then
        let depth := depth - 1 in
        if (depth =? 0) && negb (str_eqb rest []) then false
        else is_outer_from depth rest
      else is_outer_from depth rest
  end.

(** The [while] loop that removes outer parentheses; [None] when the fuel
    runs out before the loop exits. *)
Fixpoint remove_outer_parens (fuel : nat) (condition : pystr) : option pystr :=
  if negb (startswith condition (py "(") && endswith condition (py ")"))
  then Some condition
  else if negb (is_outer_from 0 condition) then Some condition
  else
    match fuel with
    | O => None
    | S fuel' => remove_outer_parens fuel' (strip (slice_1_m1 condition))
    end.

(** The scan for the operators outside parentheses; [s] is
    [condition[i:]].  It returns [(or_pos, and_pos)], [-1] meaning that the
    operator was not found: the last [" or "] and the first [" and "]. *)
Fixpoint find_operators (i depth or_pos and_pos : Z) (s : pystr) : Z * Z :=
  match s with
  | [] => (or_pos, and_pos)
  | char :: rest =>
      if chr_eqb char "("%char then find_operators (i + 1) (depth + 1) or_pos and_pos rest
      else if chr_eqb char ")"%char then find_operators (i + 1) (depth - 1) or_pos and_pos rest
      else if depth =? 0 then
        if startswith s (py " or ")
        then find_operators (i + 1) depth (i + 2) and_pos rest
        else if startswith s (py " and ")
        then find_operators (i + 1) depth or_pos
               (if and_pos =? -1 then i + 2 else and_pos) rest
        else find_operators (i + 1) depth or_pos and_pos rest
      else find_operators (i + 1) depth or_pos and_pos rest
  end.

(** [_evaluate_condition] with a bound on the depth of the recursion;
    [None] when the bound is reached. *)
Fixpoint evaluate_fuel (fuel : nat) (condition : pystr) (dynamic_config : config)
  : option outcome :=
  match fuel with
  | O => None
  | S fuel' =>
      let condition := strip condition in
      match remove_outer_parens (length condition) condition with
      | None => None
      | Some condition =>
          let '(or_pos, and_pos) := find_operators 0 0 (-1) (-1) condition in
          if negb (or_pos =? -1) then
            let left := strip (slice_to condition (or_pos - 2)) in
            let right := strip (slice_from condition (or_pos + 2)) in
            match evaluate_fuel fuel' left dynamic_config with
            | None => None
            | Some l => or_else l (evaluate_fuel fuel' right dynamic_config)
            end
          else if negb (and_pos =? -1) then
            let left := strip (slice_to condition (and_pos - 2)) in
            let right := strip (slice_from condition (and_pos + 3)) in
            match evaluate_fuel fuel' left dynamic_config with
            | None => None
            | Some l => and_then l (evaluate_fuel fuel' right dynamic_config)
            end
          else Some (_evaluate_single_condition condition dynamic_config)
      end
  end.

(** [_evaluate_condition]: the recursion is given one more step than the
    condition has characters (enough by [evaluate_fuel_enough] below). *)
Definition _evaluate_condition (condition : pystr) (dynamic_config : config)
  : option outcome :=
  evaluate_fuel (S (length condition)) condition dynamic_config.

(** *** Boolean expressions over comparisons

    The grammar the evaluator is meant for, with [or] binding looser than
    [and]: a disjunction of conjunctions of factors, a factor being a
    comparison or a parenthesized expression.  The operands are nested the
    way the evaluator splits (at the last [or], at the first [and]). *)
Inductive disj :=
| DConj (c : conj)
| DOr (d : disj) (c : conj)
with conj :=
| CFactor (f : factor)
| CAnd (f : factor) (c : conj)
with factor :=
| FAtom (comparison : pystr)
| FParen (d : disj).

(** The text of an expression. *)
Fixpoint render_disj (d : disj) : pystr :=
  match d with
  | DConj c => render_conj c
  | DOr d c => render_disj d ++ py " or " ++ render_conj c
  end
with render_conj (c : conj) : pystr :=
  match c with
  | CFactor f => render_factor f
  | CAnd f c => render_factor f ++ py " and " ++ render_conj c
  end
with render_factor (f : factor) : pystr :=
  match f with
  | FAtom comparison => comparison
  | FParen d => py "(" ++ render_disj d ++ py ")"
  end.

(** The value of [a or b] and [a and b] when both operands have outcomes. *)
Definition or_outcome (a b : outcome) : outcome :=
  match a with
  | Ret true => Ret true
  | Ret false => b
  | RaiseTypeError => RaiseTypeError
  end.

Definition and_outcome (a b : outcome) : outcome :=
  match a with
  | Ret true => b
  | Ret false => Ret false
  | RaiseTypeError => RaiseTypeError
  end.

(** The meaning of an expression under standard precedence: comparisons
    are evaluated by [_evaluate_single_condition], the connectives combine
    them from left to right. *)
Fixpoint disj_value (cfg : config) (d : disj) : outcome :=
  match d with
  | DConj c => conj_value cfg c
  | DOr d c => or_outcome (disj_value cfg d) (conj_value cfg c)
  end
with conj_value (cfg : config) (c : conj) : outcome :=
  match c with
  | CFactor f => factor_value cfg f
  | CAnd f c => and_outcome (factor_value cfg f) (conj_value cfg c)
  end
with factor_value (cfg : config) (f : factor) : outcome :=
  match f with
  | FAtom comparison => _evaluate_single_condition comparison cfg
  | FParen d => disj_value cfg d
  end.

(** The text of a comparison: not empty, no whitespace at either end, no
    parenthesis, and neither [or] nor [and] as a word of its own. *)
Definition not_paren (c : ascii) : bool :=
  negb (chr_eqb c "("%char) && negb (chr_eqb c ")"%char).

Definition is_atom (a : pystr) : bool :=
  negb (str_eqb a []) &&
  negb (is_space (hd " "%char a)) && negb (is_space (List.last a " "%char)) &&
  forallb not_paren a &&
  negb (contains (py " or ") (py " " ++ a ++ py " ")) &&
  negb (contains (py " and ") (py " " ++ a ++ py " ")).

Fixpoint wf_disj (d : disj) : bool :=
  match d with
  | DConj c => wf_conj c
  | DOr d c => wf_disj d && wf_conj c
  end
with wf_conj (c : conj) : bool :=
  match c with
  | CFactor f => wf_factor f
  | CAnd f c => wf_factor f && wf_conj c
  end
with wf_factor (f : factor) : bool :=
  match f with
  | FAtom comparison => is_atom comparison
  | FParen d => wf_disj d
  end.

(** *** The coercion policy of [==] and [!=], as the specification words it

    Boolean literals are compared first; else integer coercion of both
    sides is attempted; else both sides are compared as strings.  A missing
    option counts as [False], [0] and the empty string respectively. *)
Definition as_bool (actual_value : value) : bool :=
  match actual_value with VNone => false | _ => py_bool actual_value end.

Definition as_int (actual_value : value) : option Z :=
  match actual_value with VNone => Some 0 | _ => py_int actual_value end.

Definition as_str (actual_value : value) : pystr :=
  match actual_value with VNone => [] | _ => py_str actual_value end.

Inductive policy_equal (actual_value : value) (literal : pystr) : bool -> Prop :=
| equal_as_booleans :
    is_bool_literal literal = true ->
    policy_equal actual_value literal
      (Bool.eqb (as_bool actual_value) (str_eqb (lower literal) (py "true")))
| equal_as_integers n m :
    is_bool_literal literal = false ->
    int_of_str literal = Some n -> as_int actual_value = Some m ->
    policy_equal actual_value literal (m =? n)
| equal_as_strings :
    is_bool_literal literal = false ->
    int_of_str literal = None \/ as_int actual_value = None ->
    policy_equal actual_value literal (str_eqb (as_str actual_value) literal).

(** The configurations of the examples. *)
Definition cfg_phases (n : Z) : config := {[ "phases"%string := VInt n ]}.
Definition cfg_a2_b5 : config := <[ "a"%string := VInt 2 ]> {[ "b"%string := VInt 5 ]}.

(** *** Notions used to relate the scan to the grammar *)

(** Strings whose parentheses are balanced. *)
Inductive closed : pystr -> Prop :=
| closed_nil : closed []
| closed_chr c s : not_paren c = true -> closed s -> closed (c :: s)
| closed_paren s1 s2 : closed s1 -> closed s2 -> closed (py "(" ++ s1 ++ py ")" ++ s2).

(** What may follow a factor: nothing, a space or a closing parenthesis. *)
Definition delimited (rest : pystr) : Prop :=
  match rest with
  | [] => True
  | c :: _ => c = " "%char \/ c = ")"%char
  end.

(** An expression without its outer parentheses. *)
Fixpoint peel (d : disj) : disj :=
  match d with
  | DConj (CFactor (FParen d')) => peel d'
  | _ => d
  end.
Scheme disj_mut := Induction for disj Sort Prop
  with conj_mut := Induction for conj Sort Prop
  with factor_mut := Induction for factor Sort Prop.
Combined Scheme expr_mutind from disj_mut, conj_mut, factor_mut.

(** No whitespace at either end, and not empty. *)
Definition trimmed (s : pystr) : Prop :=
  s <> [] /\ is_space (hd " "%char s) = false /\ is_space (List.last s " "%char) = false.

(** Where a conjunction records its first [and] when the scan reaches it at
    index [i] with [and_pos] as found so far. *)
Definition conj_and (i and_pos : Z) (c : conj) : Z :=
  match c with
  | CFactor _ => and_pos
  | CAnd f _ =>
      if and_pos =? -1 then i + Z.of_nat (length (render_factor f)) + 2 else and_pos
  end.

Definition is_wrapped (d : disj) : bool :=
  match d with
  | DConj (CFactor (FParen _)) => true
  | _ => false
  end.

End Cond.

(** ** Register dictionaries *)

Module PyDyn.

(** The values a register definition holds once the template is read:
    [None], booleans, integers, floats (binary64), strings, lists and
    dictionaries with string keys. *)
Inductive dyn :=
| DNone
| DBool (b : bool)
| DInt (z : Z)
| DFloat (f : float)
| DStr (s : pystr)
| DList (items : list dyn)
| DDict (entries : list (pystr * dyn)).

(** A register definition: a dictionary with string keys. *)
Abbreviation pydict := (gmap string dyn).

(** [d.get(k)], [d.get(k, default)], [k in d] *)
Definition get (d : pydict) (k : string) : dyn :=
  match d !! k with Some v => v | None => DNone end.

Definition get_or (d : pydict) (k : string) (default : dyn) : dyn :=
  match d !! k with Some v => v | None => default end.

Definition has_key (d : pydict) (k : string) : bool :=
  match d !! k with Some _ => true | None => false end.

(** Lookup in a nested dictionary. *)
Fixpoint entries_get (entries : list (pystr * dyn)) (k : pystr) : option dyn :=
  match entries with
  | [] => None
  | (k', v) :: rest => if str_eqb k' k then Some v else entries_get rest k
  end.

(** [isinstance(v, int)] (a boolean is an integer) and
    [isinstance(v, (int, float))]. *)
Definition is_int (v : dyn) : bool :=
  match v with DBool _ | DInt _ => true | _ => false end.

Definition is_number (v : dyn) : bool :=
  match v with DBool _ | DInt _ | DFloat _ => true | _ => false end.

(** [bool(v)] *)
Definition truthy (v : dyn) : bool :=
  match v with
  | DNone => false
  | DBool b => b
  | DInt z => negb (z =? 0)
  | DFloat f => negb (PrimFloat.is_zero f)
  | DStr s => negb (str_eqb s [])
  | DList items => match items with [] => false | _ => true end
  | DDict entries => match entries with [] => false | _ => true end
  end.

(** Numbers: Python compares an integer and a float by their exact values.
    [None] is "unordered" (a NaN is involved). *)
Definition Z_float_compare (z : Z) (f : float) : option comparison :=
  match Prim2SF f with
  | S754_nan => None
  | S754_zero _ => Some (z ?= 0)
  | S754_infinity true => Some Gt
  | S754_infinity false => Some Lt
  | S754_finite s m e =>
      let n := if s then Z.neg m else Z.pos m in
      if 0 <=? e then Some (z ?= n * 2 ^ e) else Some (z * 2 ^ (- e) ?= n)
  end.

Definition float_compare (a b : float) : option comparison :=
  match PrimFloat.compare a b with
  | FEq => Some Eq
  | FLt => Some Lt
  | FGt => Some Gt
  | FNotComparable => None
  end.

Inductive number := NInt (z : Z) | NFloat (f : float).

Definition as_number (v : dyn) : option number :=
  match v with
  | DBool b => Some (NInt (Z.b2z b))
  | DInt z => Some (NInt z)
  | DFloat f => Some (NFloat f)
  | _ => None
  end.

Definition number_compare (a b : number) : option comparison :=
  match a, b with
  | NInt x, NInt y => Some (x ?= y)
  | NInt x, NFloat g => Z_float_compare x g
  | NFloat f, NInt y => option_map CompOpp (Z_float_compare y f)
  | NFloat f, NFloat g => float_compare f g
  end.

Definition is_ge (c : option comparison) : bool :=
  match c with Some Gt | Some Eq => true | _ => false end.
Definition is_lt (c : option comparison) : bool :=
  match c with Some Lt => true | _ => false end.
Definition is_le (c : option comparison) : bool :=
  match c with Some Lt | Some Eq => true | _ => false end.
Definition is_eq (c : option comparison) : bool :=
  match c with Some Eq => true | _ => false end.

(** Strings are ordered by code points. *)
Fixpoint str_compare (a b : pystr) : comparison :=
  match a, b with
  | [], [] => Eq
  | [], _ :: _ => Lt
  | _ :: _, [] => Gt
  | x :: a', y :: b' =>
      match Nat.compare (code x) (code y) with
      | Eq => str_compare a' b'
      | c => c
      end
  end.

(** [a == b]; it never raises.  Dictionaries are equal when they have the
    same number of entries and every entry of the first is in the second. *)
Fixpoint py_eq (a b : dyn) {struct a} : bool :=
  match a, b with
  | DNone, DNone => true
  | DStr s, DStr t => str_eqb s t
  | DList xs, DList ys =>
      (fix list_eq (xs ys : list dyn) {struct xs} : bool :=
         match xs, ys with
         | [], [] => true
         | x :: xs', y :: ys' => py_eq x y && list_eq xs' ys'
         | _, _ => false
         end) xs ys
  | DDict xs, DDict ys =>
      (length xs =? length ys)%nat &&
      (fix entries_in (xs : list (pystr * dyn)) {struct xs} : bool :=
         match xs with
         | [] => true
         | (k, v) :: xs' =>
             match entries_get ys k with
             | Some w => py_eq v w
             | None => false
             end && entries_in xs'
         end) xs
  | DBool x, _ =>
      match as_number b with
      | Some n => is_eq (number_compare (NInt (Z.b2z x)) n)
      | None => false
      end
  | DInt x, _ =>
      match as_number b with
      | Some n => is_eq (number_compare (NInt x) n)
      | None => false
      end
  | DFloat x, _ =>
      match as_number b with
      | Some n => is_eq (number_compare (NFloat x) n)
      | None => false
      end
  | _, _ => false
  end.

(** [a >= b]; [None] is the [TypeError] of operands that cannot be ordered.
    Lists are ordered by their first differing items, then by length. *)
Fixpoint py_ge (a b : dyn) {struct a} : option bool :=
  match a, b with
  | DStr s, DStr t =>
      Some (match str_compare s t with Lt => false | _ => true end)
  | DList xs, DList ys =>
      (fix list_ge (xs ys : list dyn) {struct xs} : option bool :=
         match xs, ys with
         | _, [] => Some true
         | [], _ :: _ => Some false
         | x :: xs', y :: ys' => if py_eq x y then list_ge xs' ys' else py_ge x y
         end) xs ys
  | _, _ =>
      match as_number a, as_number b with
      | Some x, Some y => Some (is_ge (number_compare x y))
      | _, _ => None
      end
  end.

(** [a < b]; [None] is the [TypeError] of operands that cannot be ordered. *)
Fixpoint py_lt (a b : dyn) {struct a} : option bool :=
  match a, b with
  | DStr s, DStr t =>
      Some (match str_compare s t with Lt => true | _ => false end)
  | DList xs, DList ys =>
      (fix list_lt (xs ys : list dyn) {struct xs} : option bool :=
         match xs, ys with
         | [], [] => Some false
         | [], _ :: _ => Some true
         | _ :: _, [] => Some false
         | x :: xs', y :: ys' => if py_eq x y then list_lt xs' ys' else py_lt x y
         end) xs ys
  | _, _ =>
      match as_number a, as_number b with
      | Some x, Some y => Some (is_lt (number_compare x y))
      | _, _ => None
      end
  end.

End PyDyn.
Import PyDyn.

(** ** Register validation ([template_loader.py]) *)

Module Validate.

Section Defaults.

(** Constants of [const.py], used as defaults of optional fields. *)
Variables DEFAULT_UPDATE_INTERVAL DEFAULT_PRECISION DEFAULT_MIN_VALUE
  DEFAULT_MAX_VALUE : dyn.

Definition REQUIRED_FIELDS : list string := ["name"; "address"]%string.

Definition OPTIONAL_FIELDS : list (string * dyn) :=
  [ ("unique_id", DStr []);
    ("device_address", DInt 1);
    ("input_type", DStr (py "input"));
    ("data_type", DStr (py "uint16"));
    ("count", DInt 1);
    ("scan_interval", DEFAULT_UPDATE_INTERVAL);
    ("precision", DEFAULT_PRECISION);
    ("unit_of_measurement", DStr []);
    ("device_class", DNone);
    ("state_class", DNone);
    ("scale", DFloat 1%float);
    ("swap", DBool false);
    ("byte_order", DStr (py "big"));
    ("group", DNone);
    ("offset", DFloat 0%float);
    ("multiplier", DFloat 1%float);
    ("sum_scale", DNone);
    ("shift_bits", DInt 0);
    ("bits", DNone);
    ("bitmask", DNone);
    ("bit_position", DNone);
    ("bit_shift", DInt 0);
    ("bit_rotate", DInt 0);
    ("bit_range", DNone);
    ("float", DBool false);
    ("string", DBool false);
    ("encoding", DStr (py "utf-8"));
    ("max_length", DNone);
    ("control", DStr (py "none"));
    ("min_value", DEFAULT_MIN_VALUE);
    ("max_value", DEFAULT_MAX_VALUE);
    ("step", DFloat 1%float);
    ("options", DDict []);
    ("map", DDict []);
    ("flags", DDict []);
    ("never_resets", DBool false);
    ("entity_category", DNone);
    ("icon", DNone);
    ("read_function_code", DNone);
    ("write_function_code", DNone) ]%string.

Definition is_str (v : dyn) (s : string) : bool := py_eq v (DStr (py s)).

Definition determine_entity_type (register_data : pydict) : pystr :=
  let control := get_or register_data "control" (DStr (py "none")) in
  if is_str control "number" then py "number"
  else if is_str control "select" then py "select"
  else if is_str control "switch" then py "switch"
  else if is_str control "button" then py "button"
  else if is_str control "text" then py "text"
  else if is_str (get register_data "data_type") "boolean" then py "binary_sensor"
  else py "sensor".

(** [validate_control_settings]; any exception makes it return [False]. *)
Definition validate_control_settings (reg : pydict) : bool :=
  let control := get_or reg "control" (DStr (py "none")) in
  if is_str control "number" then
    let min_val := get reg "min_value" in
    let max_val := get reg "max_value" in
    match min_val, max_val with
    | DNone, _ | _, DNone => true
    | _, _ =>
        match py_ge min_val max_val with
        | Some true => false
        | Some false => true
        | None => false
        end
    end
  else if is_str control "switch" then
    let switch_config := get_or reg "switch" (DDict []) in
    if truthy switch_config then
      match switch_config with
      | DDict entries =>
          let on_val := match entries_get entries (py "on") with
                        | Some v => v | None => DInt 1 end in
          let off_val := match entries_get entries (py "off") with
                         | Some v => v | None => DInt 0 end in
          negb (py_eq on_val off_val)
      | _ => false
      end
    else true
  else true.

Definition valid_data_types : list string :=
  ["uint16"; "int16"; "uint32"; "int32"; "string"; "float"; "float32";
   "float64"; "boolean"]%string.

(** [data_type not in valid_data_types] is [False] only for a string of
    the set; a list or a dictionary cannot be hashed, and that exception
    makes the validation return [False] as well. *)
Definition is_valid_data_type (data_type : dyn) : bool :=
  existsb (is_str data_type) valid_data_types.

Definition is_float_type (data_type : dyn) : bool :=
  existsb (is_str data_type) ["float"; "float32"; "float64"]%string.

Definition lt_int (v : dyn) (n : Z) : bool :=
  match as_number v with
  | Some x => is_lt (number_compare x (NInt n))
  | None => false
  end.

Definition le_int (v : dyn) (n : Z) : bool :=
  match as_number v with
  | Some x => is_le (number_compare x (NInt n))
  | None => false
  end.

Definition is_none (v : dyn) : bool :=
  match v with DNone => true | _ => false end.

(** [validate_register_data]; any exception makes it return [False]. *)
Definition validate_register_data (reg : pydict) : bool :=
  let address := get reg "address" in
  if negb (is_int address) || lt_int address 0 then false else
  let data_type := get reg "data_type" in
  if negb (is_valid_data_type data_type) then false else
  let count := get reg "count" in
  if negb (is_none count) && (negb (is_int count) || lt_int count 1) then false else
  if is_float_type data_type && negb (is_none count) &&
     (let min_count :=
        if existsb (is_str data_type) ["float"; "float32"]%string then 2 else 4 in
      lt_int count min_count)
  then false else
  let scale := get reg "scale" in
  if negb (is_number scale) || le_int scale 0 then false else
  let scan_interval := get reg "scan_interval" in
  if negb (is_int scan_interval) || lt_int scan_interval 0 then false else
  if negb (validate_control_settings reg) then false else
  let sum_scale := get reg "sum_scale" in
  if negb (is_none sum_scale) &&
     negb (match sum_scale with
           | DList items => forallb is_number items
           | _ => false
           end)
  then false else
  if is_str (get reg "control") "select" &&
     (let options := get_or reg "options" (DDict []) in
      negb (match options with DDict _ => true | _ => false end) ||
      negb (truthy options))
  then false else
  true.

(** [validate_and_process_register]: [None] when the register is rejected,
    the processed register otherwise. *)
Definition with_defaults (reg : pydict) (processed : pydict) : pydict :=
  fold_left
    (fun acc '(field, default_value) =>
       if negb (has_key acc field) && negb (String.eqb field "count")
       then <[field := get_or reg field default_value]> acc
       else acc)
    OPTIONAL_FIELDS processed.

Definition validate_and_process_register (reg : pydict) : option pydict :=
  if negb (forallb (has_key reg) REQUIRED_FIELDS) then None else
  let processed_reg : pydict :=
    fold_left (fun acc field => <[field := get reg field]> acc) REQUIRED_FIELDS ∅ in
  let template_count := get reg "count" in
  let processed_reg := <["count" := template_count]> processed_reg in
  let processed_reg := with_defaults reg processed_reg in
  let processed_reg := processed_reg ∪ reg in
  let processed_reg :=
    <["entity_type" := DStr (determine_entity_type processed_reg)]> processed_reg in
  if negb (validate_register_data processed_reg) then None else Some processed_reg.

(** The loop of the template loader over the [sensors] of a template: only
    validated registers are kept, each tagged with the template name. *)
Definition validated_registers (template_name : pystr) (raw_registers : list pydict)
  : list pydict :=
  omap (fun reg =>
          match validate_and_process_register reg with
          | Some validated_reg =>
              if negb (bool_decide (validated_reg = ∅))
              then Some (<["template" := DStr template_name]> validated_reg)
              else None
          | None => None
          end) raw_registers.

End Defaults.

(** A processed register agrees with the template register wherever both
    have a field. *)
Definition agrees (processed reg : pydict) : Prop :=
  forall k v w, processed !! k = Some v -> reg !! k = Some w -> v = w.

(** A float32 sensor declared with [count] words. *)
Definition float32_sensor (count : Z) : pydict :=
  <["name"%string := DStr (py "Grid frequency")]>
  (<["address"%string := DInt 5036]>
  (<["data_type"%string := DStr (py "float32")]>
  (<["count"%string := DInt count]>
  (<["scale"%string := DFloat 1%float]>
  (<["scan_interval"%string := DInt 30]> ∅))))).

End Validate.

(** ** Writing a number entity ([number.py]) *)

Module Number.

(** *** Floats and register words *)

(** [float(n)] for an integer: the nearest binary64, [None] being the
    [OverflowError] of an integer too large to convert. *)
Definition float_of_int (z : Z) : option float :=
  let f := SF2Prim (binary_normalize prec emax z 0 false) in
  if PrimFloat.is_infinity f then None else Some f.

Inductive exn :=
| TypeError
| ValueError
| OverflowError
| ZeroDivisionError
| AttributeError
| HostError.

(** A number of the configuration as a float operand of [-] or [/]. *)
Definition float_operand (v : dyn) : exn + float :=
  match v with
  | DBool b => inr (if b then 1%float else 0%float)
  | DInt z => match float_of_int z with Some f => inr f | None => inl OverflowError end
  | DFloat f => inr f
  | _ => inl TypeError
  end.

(** [int(x)] for a float: truncation towards zero. *)
Definition int_of_float (x : float) : exn + Z :=
  match Prim2SF x with
  | S754_nan => inl ValueError
  | S754_infinity _ => inl OverflowError
  | S754_zero _ => inr 0
  | S754_finite s m e =>
      let magnitude := if 0 <=? e then Z.pos m * 2 ^ e else Z.pos m / 2 ^ (- e) in
      inr (if s then - magnitude else magnitude)
  end.

(** The bit pattern of a float in an IEEE-754 format with [mw] fraction
    bits and [ew] exponent bits ([mw + ew + 1] bits in all). *)
Definition ieee_bits (mw ew : Z) (x : spec_float) : Z :=
  let sign (s : bool) := if s then 2 ^ (mw + ew) else 0 in
  let bias := 2 ^ (ew - 1) - 1 in
  match x with
  | S754_zero s => sign s
  | S754_infinity s => sign s + (2 ^ ew - 1) * 2 ^ mw
  | S754_nan => (2 ^ ew - 1) * 2 ^ mw + 2 ^ (mw - 1)
  | S754_finite s m e =>
      if 2 ^ mw <=? Z.pos m
      then sign s + (e + bias + mw) * 2 ^ mw + (Z.pos m - 2 ^ mw)
      else sign s + Z.pos m
  end.

(** The 16-bit words of an [n]-word pattern, most significant first. *)
Fixpoint words_of (n : nat) (bits : Z) : list Z :=
  match n with
  | O => []
  | S k => (bits / 2 ^ (16 * Z.of_nat k)) mod 65536 :: words_of k bits
  end.

(** [struct.unpack(">HH", struct.pack(">f", x))]: [x] rounded to binary32;
    [None] is the [OverflowError] of a finite [x] too large for the
    format. *)
Definition pack_float32 (x : float) : option (list Z) :=
  let single :=
    match Prim2SF x with
    | S754_finite s m e =>
        binary_normalize 24 128 (if s then Z.neg m else Z.pos m) e s
    | other => other
    end in
  match Prim2SF x, single with
  | S754_finite _ _ _, S754_infinity _ => None
  | _, _ => Some (words_of 2 (ieee_bits 23 8 single))
  end.

(** [struct.unpack(">HHHH", struct.pack(">d", x))] *)
Definition pack_float64 (x : float) : list Z :=
  words_of 4 (ieee_bits 52 11 (Prim2SF x)).

(** *** The entity and its host *)

Inductive write_value :=
| WInt (n : Z)
| WRegs (regs : list Z).

Inductive log_level := LogWarning | LogError.

Inductive message :=
| SafetyLimit
| FailedToSet
| ErrorSetting (e : exn).

Section Entity.

(** [modbus_utils.get_write_call_type(count, write_function_code)];
    [None] when it raises. *)
Variable call_type : Type.
Variable get_write_call_type : dyn -> dyn -> option call_type.

(** What the entity does to the outside, in order. *)
Inductive event :=
| Log (level : log_level) (msg : message)
| PbCall (slave_id address : dyn) (value : write_value) (call : call_type)
| RequestRefresh.

(** What the host answers.  [battery_capacity_kwh] is the state of the
    battery-capacity sensor of the device as a float, [None] when the
    lookup fails at any step (no device, no sensor, state unknown or not a
    number, an exception).  [write_reply] is the result of
    [hub.async_pb_call]: truthy, falsy or an exception. *)
Inductive reply :=
| Result (truthy : bool)
| Failure.

Record host := {
  battery_capacity_kwh : option float;
  write_reply : reply;
  refresh_raises : bool
}.

(** How the call ends for the caller. *)
Inductive completion :=
| ReturnsNone
| RaisesError (e : exn).

(** [min(a, b)] *)
Definition py_min (a b : float) : float := if PrimFloat.ltb b a then b else a.

(** The safety check on battery power limits.  It yields the value to
    write and whether the warning was logged. *)
Definition limit_value (register_config : pydict) (h : host) (value : float)
  : exn + (float * list event) :=
  match get_or register_config "unique_id" (DStr []) with
  | DStr unique_id =>
      if contains (py "battery_max") (lower unique_id) &&
         contains (py "power") (lower unique_id)
      then
        match battery_capacity_kwh h with
        | Some battery_capacity_kwh =>
            let max_safe_power_kw :=
              if contains (py "charge") (lower unique_id)
              then (battery_capacity_kwh * 0.5)%float
              else (battery_capacity_kwh * 1)%float in
            let max_safe_power :=
              if py_eq (get_or register_config "unit_of_measurement" (DStr []))
                       (DStr (py "kW"))
              then max_safe_power_kw
              else (max_safe_power_kw * 1000)%float in
            if PrimFloat.ltb max_safe_power value
            then inr (py_min value max_safe_power, [Log LogWarning SafetyLimit])
            else inr (value, [])
        | None => inr (value, [])
        end
      else inr (value, [])
  | _ => inl AttributeError
  end.

(** [scale] when present, else [multiplier], else 1.0. *)
Definition scale_factor (register_config : pydict) : dyn :=
  match get register_config "scale" with
  | DNone =>
      match get register_config "multiplier" with
      | DNone => DFloat 1%float
      | multiplier => multiplier
      end
  | scale => scale
  end.

(** [(value - offset) / scale_factor] *)
Definition scaled_value (register_config : pydict) (value : float) : exn + float :=
  match float_operand (get_or register_config "offset" (DFloat 0%float)) with
  | inl e => inl e
  | inr offset =>
      match float_operand (scale_factor register_config) with
      | inl e => inl e
      | inr factor =>
          if PrimFloat.is_zero factor then inl ZeroDivisionError
          else inr ((value - offset) / factor)%float
      end
  end.

Definition is_str (v : dyn) (s : string) : bool := py_eq v (DStr (py s)).

(** The conversion to the Modbus register format: the value to write and
    the register count. *)
Definition register_format (register_config : pydict) (scaled : float)
  : exn + (write_value * dyn) :=
  let data_type := get_or register_config "data_type" (DStr (py "uint16")) in
  if is_str data_type "float" || is_str data_type "float32" then
    match pack_float32 scaled with
    | None => inl OverflowError
    | Some regs =>
        let swap := get_or register_config "swap" (DStr (py "none")) in
        let regs := if is_str swap "word" then rev regs else regs in
        inr (WRegs regs, DInt 2)
    end
  else if is_str data_type "float64" then
    inr (WRegs (pack_float64 scaled), DInt 4)
  else
    match int_of_float scaled with
    | inl e => inl e
    | inr n =>
        let count := get_or register_config "count" (DInt 1) in
        inr (WInt n, if truthy count then count else DInt 1)
    end.

(** The body of the [try] block: the events so far and how it ended. *)
Definition set_value_body (register_config : pydict) (h : host) (value : float)
  : list event * (exn + unit) :=
  match limit_value register_config h value with
  | inl e => ([], inl e)
  | inr (value, warned) =>
      let address := get register_config "address" in
      let slave_id := get_or register_config "slave_id" (DInt 1) in
      match scaled_value register_config value with
      | inl e => (warned, inl e)
      | inr scaled =>
          match register_format register_config scaled with
          | inl e => (warned, inl e)
          | inr (to_write, count) =>
              match get_write_call_type count
                      (get register_config "write_function_code") with
              | None => (warned, inl HostError)
              | Some call =>
                  let called := warned ++ [PbCall slave_id address to_write call] in
                  match write_reply h with
                  | Failure => (called, inl HostError)
                  | Result true =>
                      if refresh_raises h
                      then (called ++ [RequestRefresh], inl HostError)
                      else (called ++ [RequestRefresh], inr tt)
                  | Result false =>
                      (called ++ [Log LogError FailedToSet], inr tt)
                  end
              end
          end
      end
  end.

(** [async_set_native_value]: every exception of the body is caught and
    logged. *)
Definition async_set_native_value (register_config : pydict) (h : host) (value : float)
  : completion * list event :=
  match set_value_body register_config h value with
  | (events, inl e) => (ReturnsNone, events ++ [Log LogError (ErrorSetting e)])
  | (events, inr tt) => (ReturnsNone, events)
  end.

Definition is_pb_call (e : event) : bool :=
  match e with PbCall _ _ _ _ => true | _ => false end.

Definition is_refresh (e : event) : bool :=
  match e with RequestRefresh => true | _ => false end.

Definition is_error_log (e : event) : bool :=
  match e with Log LogError _ => true | _ => false end.

End Entity.

Arguments Log {call_type}.
Arguments PbCall {call_type}.
Arguments RequestRefresh {call_type}.
Arguments is_pb_call {call_type}.
Arguments is_refresh {call_type}.
Arguments is_error_log {call_type}.


Definition setpoint_config : pydict :=
  <["unique_id"%string := DStr (py "SG_export_limit")]>
  (<["address"%string := DInt 13073]>
  (<["scale"%string := DFloat 0.5%float]>
  (<["offset"%string := DInt 10]> ∅))).


Definition host_write_fails : host :=
  {| battery_capacity_kwh := None; write_reply := Result false;
     refresh_raises := false |}.

(** A write function selection that depends on the count only. *)
Definition call_by_count (count write_function_code : dyn) : option Z :=
  match count with
  | DInt 1 => Some 6
  | DInt _ => Some 16
  | _ => None
  end.

End Number.

(** ** Versions ([packaging.version], PEP 440) *)

Module Pep440.

Inductive pre_tag := TagA | TagB | TagRC.

Inductive local_part :=
| LocalStr (s : pystr)
| LocalInt (n : Z).

(** A parsed version: epoch, release segments, pre-release, post-release,
    development release and local version. *)
Record version := {
  v_epoch : Z;
  v_release : list Z;
  v_pre : option (pre_tag * Z);
  v_post : option Z;
  v_dev : option Z;
  v_local : option (list local_part)
}.

(** *** Parsing *)

Definition is_sep (c : ascii) : bool :=
  chr_eqb c "-"%char || chr_eqb c "_"%char || chr_eqb c "."%char.

Definition is_alnum (c : ascii) : bool :=
  let n := code c in (is_digit c || (97 <=? n) && (n <=? 122))%nat.

(** The longest prefix of digits and what follows it. *)
Fixpoint span_digits (s : pystr) : pystr * pystr :=
  match s with
  | c :: r =>
      if is_digit c then let '(ds, rest) := span_digits r in (c :: ds, rest)
      else ([], s)
  | [] => ([], [])
  end.

Definition int_of_digits (ds : pystr) : Z :=
  fold_left (fun acc c => acc * 10 + digit_val c) ds 0.

(** An optional separator, an optional number. *)
Definition skip_sep (s : pystr) : pystr :=
  match s with
  | c :: r => if is_sep c then r else s
  | [] => []
  end.

Definition opt_number (s : pystr) : option Z * pystr :=
  match span_digits s with
  | ([], _) => (None, s)
  | (ds, rest) => (Some (int_of_digits ds), rest)
  end.

Fixpoint strip_prefix (p s : pystr) : option pystr :=
  match p, s with
  | [], _ => Some s
  | a :: p', b :: s' => if chr_eqb a b then strip_prefix p' s' else None
  | _ :: _, [] => None
  end.

(** The first keyword of the list, in order, that [s] starts with. *)
Fixpoint first_keyword {T} (keywords : list (string * T)) (s : pystr) : option (T * pystr) :=
  match keywords with
  | [] => None
  | (k, t) :: more =>
      match strip_prefix (py k) s with
      | Some rest => Some (t, rest)
      | None => first_keyword more s
      end
  end.

Definition pre_keywords : list (string * pre_tag) :=
  [ ("alpha", TagA); ("a", TagA); ("beta", TagB); ("b", TagB);
    ("preview", TagRC); ("pre", TagRC); ("c", TagRC); ("rc", TagRC) ]%string.

Definition post_keywords : list (string * unit) :=
  [ ("post", tt); ("rev", tt); ("r", tt) ]%string.

Definition dev_keywords : list (string * unit) := [ ("dev", tt) ]%string.

Definition number_or_zero (n : option Z) : Z :=
  match n with Some n => n | None => 0 end.

(** A separator, a keyword, a separator, a number; the group is absent when
    the keyword is. *)
Definition parse_tagged {T} (keywords : list (string * T)) (s : pystr)
  : option (T * Z) * pystr :=
  match first_keyword keywords (skip_sep s) with
  | Some (t, rest) =>
      let '(n, rest) := opt_number (skip_sep rest) in
      (Some (t, number_or_zero n), rest)
  | None => (None, s)
  end.

(** The post-release: a hyphen and a number, or a tagged group. *)
Definition parse_post (s : pystr) : option Z * pystr :=
  match s with
  | c :: r =>
      if chr_eqb c "-"%char then
        match opt_number r with
        | (Some n, rest) => (Some n, rest)
        | (None, _) =>
            let '(p, rest) := parse_tagged post_keywords s in (option_map snd p, rest)
        end
      else let '(p, rest) := parse_tagged post_keywords s in (option_map snd p, rest)
  | [] => (None, [])
  end.

(** The release: numbers separated by dots.  [cur] is the segment being
    read, [segments] the ones read, last first. *)
Fixpoint parse_release (cur : option Z) (segments : list Z) (s : pystr)
  : option (list Z * pystr) :=
  let finish rest :=
    match cur with
    | Some n => Some (rev (n :: segments), rest)
    | None => None
    end in
  match s with
  | c :: r =>
      if is_digit c
      then parse_release (Some (number_or_zero cur * 10 + digit_val c)) segments r
      else if chr_eqb c "."%char then
        match cur, r with
        | Some n, d :: _ =>
            if is_digit d then parse_release None (n :: segments) r else finish s
        | _, _ => finish s
        end
      else finish s
  | [] => finish []
  end.

(** The local version, up to the end of the string: letters and digits in
    parts separated by single separators.  [cur] is the part being read,
    reversed. *)
Definition local_part_of (part : pystr) : local_part :=
  if forallb is_digit part then LocalInt (int_of_digits part) else LocalStr part.

Fixpoint parse_local (cur : pystr) (parts : list local_part) (s : pystr)
  : option (list local_part) :=
  match s with
  | c :: r =>
      if is_alnum c then parse_local (c :: cur) parts r
      else if is_sep c then
        match cur with
        | [] => None
        | _ => parse_local [] (local_part_of (rev cur) :: parts) r
        end
      else None
  | [] =>
      match cur with
      | [] => None
      | _ => Some (rev (local_part_of (rev cur) :: parts))
      end
  end.

(** [version.parse(s)]; [None] is [InvalidVersion]. *)
Definition parse (s : pystr) : option version :=
  let s := lower (strip s) in
  let s := match s with
           | c :: r => if chr_eqb c "v"%char then r else s
           | [] => []
           end in
  let '(epoch, s) :=
    match span_digits s with
    | (d :: ds, c :: rest) =>
        if chr_eqb c "!"%char then (int_of_digits (d :: ds), rest) else (0, s)
    | _ => (0, s)
    end in
  match parse_release None [] s with
  | None => None
  | Some (release, s) =>
      let '(pre, s) := parse_tagged pre_keywords s in
      let '(post, s) := parse_post s in
      let '(dev, s) := parse_tagged dev_keywords s in
      let result local :=
        {| v_epoch := epoch; v_release := release; v_pre := pre; v_post := post;
           v_dev := option_map snd dev; v_local := local |} in
      match s with
      | [] => Some (result None)
      | c :: r =>
          if chr_eqb c "+"%char
          then option_map (fun parts => result (Some parts)) (parse_local [] [] r)
          else None
      end
  end.

(** *** Printing: [str(v)] *)

Definition pre_tag_str (t : pre_tag) : pystr :=
  match t with TagA => py "a" | TagB => py "b" | TagRC => py "rc" end.

Definition local_part_str (p : local_part) : pystr :=
  match p with LocalStr s => s | LocalInt n => str_of_int n end.

Definition to_str (v : version) : pystr :=
  (if v_epoch v =? 0 then [] else str_of_int (v_epoch v) ++ py "!") ++
  join (py ".") (map str_of_int (v_release v)) ++
  match v_pre v with Some (t, n) => pre_tag_str t ++ str_of_int n | None => [] end ++
  match v_post v with Some n => py ".post" ++ str_of_int n | None => [] end ++
  match v_dev v with Some n => py ".dev" ++ str_of_int n | None => [] end ++
  match v_local v with
  | Some parts => py "+" ++ join (py ".") (map local_part_str parts)
  | None => []
  end.

(** *** Ordering: the comparison key *)

Definition lex (c1 c2 : comparison) : comparison :=
  match c1 with Eq => c2 | _ => c1 end.

(** Tuples compare item by item, a proper prefix being smaller. *)
Fixpoint list_compare {A} (cmp : A -> A -> comparison) (a b : list A) : comparison :=
  match a, b with
  | [], [] => Eq
  | [], _ :: _ => Lt
  | _ :: _, [] => Gt
  | x :: a', y :: b' => lex (cmp x y) (list_compare cmp a' b')
  end.

(** The release without its trailing zeros. *)
Fixpoint drop_zeros (l : list Z) : list Z :=
  match l with
  | n :: rest => if n =? 0 then drop_zeros rest else l
  | [] => []
  end.

Definition strip_trailing_zeros (release : list Z) : list Z :=
  rev (drop_zeros (rev release)).

(** The pre-release key: below everything for a development release with
    neither pre- nor post-release, above everything for a version without
    pre-release, the tag and its number otherwise. *)
Definition pre_rank (v : version) : Z * Z :=
  match v_pre v, v_post v, v_dev v with
  | None, None, Some _ => (-1, 0)
  | None, _, _ => (3, 0)
  | Some (TagA, n), _, _ => (0, n)
  | Some (TagB, n), _, _ => (1, n)
  | Some (TagRC, n), _, _ => (2, n)
  end.

(** The post-release key: below everything when absent. *)
Definition post_rank (v : version) : Z :=
  match v_post v with None => -1 | Some n => n end.

(** The development key: above everything when absent. *)
Definition dev_rank (v : version) : Z * Z :=
  match v_dev v with None => (1, 0) | Some n => (0, n) end.

Definition pair_compare (a b : Z * Z) : comparison :=
  lex (fst a ?= fst b) (snd a ?= snd b).

Definition code_compare (a b : ascii) : comparison := Nat.compare (code a) (code b).

(** Local parts: a string is below a number. *)
Definition local_part_compare (a b : local_part) : comparison :=
  match a, b with
  | LocalStr s, LocalStr t => list_compare code_compare s t
  | LocalStr _, LocalInt _ => Lt
  | LocalInt _, LocalStr _ => Gt
  | LocalInt n, LocalInt m => n ?= m
  end.

Definition local_compare (a b : option (list local_part)) : comparison :=
  match a, b with
  | None, None => Eq
  | None, Some _ => Lt
  | Some _, None => Gt
  | Some x, Some y => list_compare local_part_compare x y
  end.

Definition compare (a b : version) : comparison :=
  lex (v_epoch a ?= v_epoch b)
  (lex (list_compare Z.compare (strip_trailing_zeros (v_release a))
                               (strip_trailing_zeros (v_release b)))
  (lex (pair_compare (pre_rank a) (pre_rank b))
  (lex (post_rank a ?= post_rank b)
  (lex (pair_compare (dev_rank a) (dev_rank b))
       (local_compare (v_local a) (v_local b)))))).

(** [a < b], [a <= b], [a > b] *)
Definition ltb (a b : version) : bool :=
  match compare a b with Lt => true | _ => false end.
Definition leb (a b : version) : bool :=
  match compare a b with Gt => false | _ => true end.
Definition gtb (a b : version) : bool :=
  match compare a b with Gt => true | _ => false end.

End Pep440.

(** ** Firmware gating and firmware replacements *)

Module Firmware.

Import Pep440.

(** [version.parse(x)] on a value: [inl true] is [InvalidVersion],
    [inl false] the [TypeError] of a value that is not a string. *)
Definition parse_value (x : dyn) : bool + version :=
  match x with
  | DStr s => match parse s with Some v => inr v | None => inl true end
  | _ => inl false
  end.

Inductive gate := Pass | Exclude | Raise.

(** The firmware block of [_should_include_sensor] in [config_flow.py]:
    every exception of the version comparison leads to the string
    comparison, every exception of that one to inclusion. *)
Definition firmware_gate_config_flow (sensor : pydict) (firmware_version : dyn) : gate :=
  let sensor_firmware_min := get sensor "firmware_min_version" in
  if truthy sensor_firmware_min && truthy firmware_version then
    match parse_value firmware_version, parse_value sensor_firmware_min with
    | inr current_ver, inr min_ver => if ltb current_ver min_ver then Exclude else Pass
    | _, _ =>
        match py_lt firmware_version sensor_firmware_min with
        | Some true => Exclude
        | Some false => Pass
        | None => Pass
        end
    end
  else Pass.

(** The firmware block of [_should_include_sensor] in
    [template_loader.py]: only [InvalidVersion] leads to the string
    comparison. *)
Definition firmware_gate_template_loader (sensor : pydict) (firmware_version : dyn) : gate :=
  let sensor_firmware_min := get sensor "firmware_min_version" in
  if truthy sensor_firmware_min then
    let fallback :=
      match py_lt firmware_version sensor_firmware_min with
      | Some true => Exclude
      | Some false => Pass
      | None => Raise
      end in
    match parse_value firmware_version with
    | inl false => Raise
    | inl true => fallback
    | inr current_ver =>
        match parse_value sensor_firmware_min with
        | inl false => Raise
        | inl true => fallback
        | inr min_ver => if ltb current_ver min_ver then Exclude else Pass
        end
    end
  else Pass.

Section OtherFilters.

(** The verdicts of the filters of [_should_include_sensor] other than the
    firmware block (condition, battery, phases, MPPT, strings, modules,
    connection type): in [config_flow.py] they all come after it, in
    [template_loader.py] some come before it and may return or raise. *)
Variable other_filters : bool.
Variable earlier_filters : gate.
Variable later_filters : bool.

(** What a call returns: [Some] verdict, or [None] when it raises. *)
Definition should_include_sensor_config_flow (sensor : pydict) (firmware_version : dyn)
  : option bool :=
  match firmware_gate_config_flow sensor firmware_version with
  | Exclude => Some false
  | Pass => Some other_filters
  | Raise => None
  end.

Definition should_include_sensor_template_loader (sensor : pydict) (firmware_version : dyn)
  : option bool :=
  match earlier_filters with
  | Exclude => Some false
  | Raise => None
  | Pass =>
      match firmware_gate_template_loader sensor firmware_version with
      | Exclude => Some false
      | Raise => None
      | Pass => Some later_filters
      end
  end.

End OtherFilters.


(** [max(versions)]: the first of the greatest items. *)
Definition py_max (versions : list version) : option version :=
  match versions with
  | [] => None
  | first :: rest =>
      Some (fold_left (fun best v => if gtb v best then v else best) rest first)
  end.

(** The versions of the list that parse and are not above the current one,
    in the order of the list. *)
Definition applicable_versions (current_ver : version) (available_versions : list pystr)
  : list version :=
  omap (fun ver_str =>
          match parse ver_str with
          | Some ver => if leb ver current_ver then Some ver else None
          | None => None
          end) available_versions.

(** [_find_applicable_firmware_version] for a string and a list of
    strings; [None] is Python's [None]. *)
Definition _find_applicable_firmware_version
    (current_version : pystr) (available_versions : list pystr) : option pystr :=
  match available_versions with
  | [] => None
  | _ =>
      match parse current_version with
      | Some current_ver =>
          match py_max (applicable_versions current_ver available_versions) with
          | Some highest => Some (to_str highest)
          | None => None
          end
      | None =>
          if existsb (str_eqb current_version) available_versions
          then Some current_version
          else None
      end
  end.

(** [key in container] for the containers a configuration can hold;
    [None] when it raises. *)
Definition py_in (k container : dyn) : option bool :=
  match container, k with
  | DDict entries, DStr name =>
      Some (match entries_get entries name with Some _ => true | None => false end)
  | DDict _, (DList _ | DDict _) => None
  | DDict _, _ => Some false
  | DList items, _ => Some (existsb (py_eq k) items)
  | DStr s, DStr name => Some (contains name s)
  | _, _ => None
  end.

(** [_apply_firmware_modifications]; [None] when it raises. *)
Definition _apply_firmware_modifications
    (sensor : pydict) (firmware_version : pystr) (dynamic_config : pydict)
  : option pydict :=
  let modified_sensor := sensor in
  let sensor_replacements := get_or dynamic_config "sensor_replacements" (DDict []) in
  let unique_id := get_or sensor "unique_id" (DStr []) in
  match py_in unique_id sensor_replacements with
  | None => None
  | Some false => Some modified_sensor
  | Some true =>
      match sensor_replacements, unique_id with
      | DDict all_replacements, DStr name =>
          match entries_get all_replacements name with
          | Some (DDict ((_ :: _) as replacements)) =>
              let replacement_keys := map fst replacements in
              match _find_applicable_firmware_version firmware_version replacement_keys with
              | Some applicable_version =>
                  if negb (str_eqb applicable_version []) then
                    match entries_get replacements applicable_version with
                    | Some (DDict replacement_config) =>
                        Some (fold_left
                                (fun modified '(param, value) =>
                                   if negb (str_eqb param (py "description"))
                                   then <[string_of_list_ascii param := value]> modified
                                   else modified)
                                replacement_config modified_sensor)
                    | _ => Some modified_sensor
                    end
                  else Some modified_sensor
              | None => Some modified_sensor
              end
          | _ => Some modified_sensor
          end
      | _, _ => None
      end
  end.

(** A sensor with a replacement for firmware 1.05, and the configuration
    that declares it. *)
Definition meter_sensor : pydict :=
  <["unique_id"%string := DStr (py "meter_power")]>
  (<["address"%string := DInt 5600]> ∅).

Definition replacements_config : pydict :=
  {[ "sensor_replacements"%string :=
       DDict [ (py "meter_power",
                DDict [ (py "1.0", DDict [ (py "address", DInt 5601) ]);
                        (py "1.05", DDict [ (py "address", DInt 5602) ]) ]) ] ]}.

Definition gated_sensor (firmware_min_version : string) : pydict :=
  {[ "firmware_min_version"%string := DStr (py firmware_min_version) ]}.

End Firmware.

(** ** The range optimizer *)

Module Optimizer.

Inductive register_space := Holding | Input.

(** Modelled from the spec: the RegisterDefinition of the data model,
    module [register_optimizer.py] being absent.  Only the fields the
    optimizer reads are kept (data type, scaling, swap, write metadata and
    condition play no role in it). *)
Record RegisterDefinition := {
  unique_id : string;
  address : Z;
  space : register_space;
  word_count : Z;
  slave_id : Z
}.

(** Modelled from the spec: the ReadSpan of the data model. *)
Record ReadSpan := {
  span_slave_id : Z;
  span_space : register_space;
  start_address : Z;
  span_word_count : Z
}.

Definition space_eqb (a b : register_space) : bool :=
  match a, b with
  | Holding, Holding | Input, Input => true
  | _, _ => false
  end.

(** The group of a register: its slave and its register space. *)
Definition group_key (r : RegisterDefinition) : Z * register_space :=
  (slave_id r, space r).

Definition key_eqb (k1 k2 : Z * register_space) : bool :=
  (fst k1 =? fst k2) && space_eqb (snd k1) (snd k2).

(** One past the last address of a register. *)
Definition reg_end (r : RegisterDefinition) : Z := address r + word_count r.

Section Sweep.

Variables max_span_words max_gap_words : Z.

(** Modelled from the spec: the sweep of one group, already sorted by
    address.  [start] and [end_] delimit the current span ([end_] is one
    past its last word); a register extends it when
    [address - end_ <= max_gap_words] and
    [address + word_count - start <= max_span_words]; otherwise the span is
    emitted and a new one begins at the register. *)
Fixpoint sweep (key : Z * register_space) (start end_ : Z)
    (registers : list RegisterDefinition) : list ReadSpan :=
  let emit :=
    {| span_slave_id := fst key; span_space := snd key;
       start_address := start; span_word_count := end_ - start |} in
  match registers with
  | [] => [emit]
  | r :: rest =>
      if (address r - end_ <=? max_gap_words) &&
         (reg_end r - start <=? max_span_words)
      then sweep key start (Z.max end_ (reg_end r)) rest
      else emit :: sweep key (address r) (reg_end r) rest
  end.

Definition sweep_group (registers : list RegisterDefinition) : list ReadSpan :=
  match registers with
  | [] => []
  | r :: rest => sweep (group_key r) (address r) (reg_end r) rest
  end.

End Sweep.

(** Modelled from the spec: sorting a group by address (an insertion sort,
    which keeps registers of equal address in their order). *)
Fixpoint insert_by_address (r : RegisterDefinition) (sorted : list RegisterDefinition)
  : list RegisterDefinition :=
  match sorted with
  | [] => [r]
  | x :: rest =>
      if address r <? address x then r :: sorted
      else x :: insert_by_address r rest
  end.

Fixpoint sort_by_address (registers : list RegisterDefinition) : list RegisterDefinition :=
  match registers with
  | [] => []
  | r :: rest => insert_by_address r (sort_by_address rest)
  end.

(** Modelled from the spec: the groups, in the order in which their first
    register appears. *)
Fixpoint group_keys (registers : list RegisterDefinition) : list (Z * register_space) :=
  match registers with
  | [] => []
  | r :: rest =>
      group_key r :: filter (fun k => negb (key_eqb (group_key r) k)) (group_keys rest)
  end.

Definition group_of (registers : list RegisterDefinition) (key : Z * register_space)
  : list RegisterDefinition :=
  filter (fun r => key_eqb key (group_key r)) registers.

(** The registers in the order of the sweep: group after group, each sorted
    by address. *)
Definition sorted_groups (registers : list RegisterDefinition)
  : list (list RegisterDefinition) :=
  map (fun key => sort_by_address (group_of registers key)) (group_keys registers).

(** Modelled from the spec: [optimize(registers, max_span_words,
    max_gap_words)]: group by slave and register space, sort each group by
    address, sweep it. *)
Definition optimize (registers : list RegisterDefinition)
    (max_span_words max_gap_words : Z) : list ReadSpan :=
  concat (map (sweep_group max_span_words max_gap_words) (sorted_groups registers)).

(** *** What the specification asks of the result *)

(** A span covers a register of its group that lies within it. *)
Definition covers (s : ReadSpan) (r : RegisterDefinition) : Prop :=
  span_slave_id s = slave_id r /\ span_space s = space r /\
  start_address s <= address r /\ reg_end r <= start_address s + span_word_count s.

(** The span that reads one register alone. *)
Definition span_of_register (r : RegisterDefinition) : ReadSpan :=
  {| span_slave_id := slave_id r; span_space := space r;
     start_address := address r; span_word_count := word_count r |}.

(** A register set: no register twice, positive widths, and no two
    registers of a group sharing a word. *)
Definition disjoint_registers (r1 r2 : RegisterDefinition) : Prop :=
  reg_end r1 <= address r2 \/ reg_end r2 <= address r1.

Definition register_set (registers : list RegisterDefinition) : Prop :=
  NoDup registers /\
  (forall r, In r registers -> 0 < word_count r) /\
  (forall r1 r2, In r1 registers -> In r2 registers -> r1 <> r2 ->
     group_key r1 = group_key r2 -> disjoint_registers r1 r2).

(** A run of registers read by one span respects the two constraints when
    no gap between neighbours exceeds [max_gap_words] and its extent does
    not exceed [max_span_words], a single register being always allowed. *)
Fixpoint gaps_within (max_gap_words : Z) (run : list RegisterDefinition) : Prop :=
  match run with
  | r1 :: ((r2 :: _) as rest) =>
      address r2 - reg_end r1 <= max_gap_words /\ gaps_within max_gap_words rest
  | _ => True
  end.

Definition run_extent (run : list RegisterDefinition) : Z :=
  match run with
  | [] => 0
  | r :: rest => reg_end (List.last rest r) - address r
  end.

Definition respects (max_span_words max_gap_words : Z) (run : list RegisterDefinition) : Prop :=
  run <> [] /\
  (forall r r', In r run -> In r' run -> group_key r = group_key r') /\
  gaps_within max_gap_words run /\
  (run_extent run <= max_span_words \/ exists r, run = [r]).

(** A strategy cuts the address-ordered registers of the groups into runs,
    one span each. *)
Definition strategy (max_span_words max_gap_words : Z)
    (registers : list RegisterDefinition) (runs : list (list RegisterDefinition)) : Prop :=
  concat runs = concat (sorted_groups registers) /\
  Forall (respects max_span_words max_gap_words) runs.

(** The registers of the example of the specification, and of the
    counterexamples. *)
Definition reg (name : string) (addr width : Z) : RegisterDefinition :=
  {| unique_id := name; address := addr; space := Holding; word_count := width;
     slave_id := 1 |}.

Definition span (start width : Z) : ReadSpan :=
  {| span_slave_id := 1; span_space := Holding; start_address := start;
     span_word_count := width |}.

(** *** Notions used in the proofs about the sweep *)

Definition span_end (s : ReadSpan) : Z := start_address s + span_word_count s.

(** Registers in address order, none sharing a word with the next. *)
Fixpoint chain (registers : list RegisterDefinition) : Prop :=
  match registers with
  | r1 :: ((r2 :: _) as rest) => reg_end r1 <= address r2 /\ chain rest
  | _ => True
  end.

(** A group ready for the sweep: one key, positive widths, a chain. *)
Definition group_ready (key : Z * register_space) (registers : list RegisterDefinition)
  : Prop :=
  Forall (fun r => group_key r = key /\ 0 < word_count r) registers /\ chain registers.

(** Spans in address order from [lo] on, none empty, none sharing a word
    with the next, all of one group. *)
Fixpoint ordered_spans (key : Z * register_space) (lo : Z) (spans : list ReadSpan) : Prop :=
  match spans with
  | [] => True
  | s :: rest =>
      (span_slave_id s, span_space s) = key /\
      lo <= start_address s /\ 0 < span_word_count s /\
      ordered_spans key (span_end s) rest
  end.
(** The state of the sweep: the current span is not empty and ends where
    its last register ends, before the next register begins. *)
Definition sweep_state (key : Z * register_space) (start end_ : Z)
    (rest : list RegisterDefinition) : Prop :=
  start < end_ /\ group_ready key rest /\
  match rest with [] => True | r :: _ => end_ <= address r end.
(** Addresses in non-decreasing order. *)
Fixpoint address_sorted (registers : list RegisterDefinition) : Prop :=
  match registers with
  | r1 :: ((r2 :: _) as rest) => address r1 <= address r2 /\ address_sorted rest
  | _ => True
  end.

(** *** The properties asked of the result, by name *)

(** Exactly one of the spans covers the register. *)
Definition covered_once (spans : list ReadSpan) (r : RegisterDefinition) : Prop :=
  exists s, In s spans /\ covers s r /\
    forall s', In s' spans -> covers s' r -> s' = s.

(** The span is within [max_span_words], or it is the span of one register
    that is itself wider. *)
Definition within_limit (max_span_words : Z) (registers : list RegisterDefinition)
    (s : ReadSpan) : Prop :=
  span_word_count s <= max_span_words \/
  exists r, In r registers /\ max_span_words < word_count r /\ s = span_of_register r.

(** [r2] follows [r1] in the address order of the group [key]. *)
Definition neighbours (registers : list RegisterDefinition) (key : Z * register_space)
    (r1 r2 : RegisterDefinition) : Prop :=
  exists before after,
    sort_by_address (group_of registers key) = before ++ r1 :: r2 :: after.

(** The register sets of the example of the specification and of the two
    counterexamples. *)
Definition example_registers : list RegisterDefinition :=
  [reg "r10" 10 1; reg "r11" 11 1; reg "r20" 20 2].

Definition tight_registers : list RegisterDefinition :=
  [reg "low" 0 10; reg "high" 10 10].

Definition overlapping_registers : list RegisterDefinition :=
  [reg "wide" 0 30; reg "inner" 5 20].

End Optimizer.

(* ===================================================================== *)
(** * Properties *)
(* ===================================================================== *)

(** ** Lengths of stripped and sliced strings *)

Section StringLengths.

Local Open Scope nat_scope.

Lemma lstrip_by_length p (s : pystr) : length (lstrip_by p s) <= length s.
Proof.
  induction s as [|c r IH]; simpl; [lia|].
  destruct (p c); simpl; lia.
Qed.

Lemma strip_by_length p (s : pystr) : length (strip_by p s) <= length s.
Proof.
  unfold strip_by, rstrip_by. rewrite length_rev.
  etransitivity; [apply lstrip_by_length|].
  rewrite length_rev. apply lstrip_by_length.
Qed.

Lemma strip_length (s : pystr) : length (strip s) <= length s.
Proof. apply strip_by_length. Qed.

Lemma removelast_length_le (s : pystr) : length (removelast s) <= length s.
Proof.
  induction s as [|c r IH]; simpl; [lia|].
  destruct r; simpl in *; lia.
Qed.

Lemma slice_1_m1_length (s : pystr) :
  s <> [] -> length (slice_1_m1 s) < length s.
Proof.
  destruct s as [|c r]; [congruence|]. intros _. unfold slice_1_m1. simpl.
  pose proof (removelast_length_le r). lia.
Qed.

Lemma startswith_nonempty (s p : pystr) :
  startswith s p = true -> p <> [] -> s <> [].
Proof. destruct p, s; simpl; congruence. Qed.

Lemma startswith_length (s p : pystr) :
  startswith s p = true -> length p <= length s.
Proof.
  revert s; induction p as [|a p IH]; intros s H; simpl in *; [lia|].
  destruct s as [|b s]; [discriminate|].
  apply andb_true_iff in H as [_ H]. apply IH in H. simpl. lia.
Qed.

End StringLengths.

(** ** The recursion of the evaluator is well founded *)

Section EvaluatorRecursion.

Import Cond.

Lemma remove_outer_parens_eq fuel (c : pystr) :
  remove_outer_parens fuel c =
  if negb (startswith c (py "(") && endswith c (py ")")) then Some c
  else if negb (is_outer_from 0 c) then Some c
  else match fuel with
       | O => None
       | S fuel' => remove_outer_parens fuel' (strip (slice_1_m1 c))
       end.
Proof. destruct fuel; reflexivity. Qed.

Lemma paren_step_shorter (c : pystr) :
  startswith c (py "(") = true ->
  (length (strip (slice_1_m1 c)) < length c)%nat.
Proof.
  intros H. apply startswith_nonempty in H; [|discriminate].
  pose proof (strip_length (slice_1_m1 c)).
  pose proof (slice_1_m1_length c H). lia.
Qed.

Lemma remove_outer_parens_enough fuel : forall c : pystr,
  (length c <= fuel)%nat ->
  exists c', remove_outer_parens fuel c = Some c' /\ (length c' <= length c)%nat.
Proof.
  induction fuel as [|fuel IH]; intros c Hlen; rewrite remove_outer_parens_eq.
  - destruct c; [|simpl in Hlen; lia]. simpl. eauto.
  - destruct (startswith c (py "(")) eqn:Hs; cbn [negb andb]; [|eauto].
    destruct (endswith c (py ")")); cbn [negb andb]; [|eauto].
    destruct (is_outer_from 0 c); cbn [negb andb]; [|eauto].
    pose proof (paren_step_shorter c Hs) as Hlt.
    destruct (IH (strip (slice_1_m1 c))) as (c' & -> & Hc'); [lia|].
    exists c'. split; [reflexivity|lia].
Qed.

Lemma find_operators_bounds (s : pystr) : forall i depth or_pos and_pos or' and',
  find_operators i depth or_pos and_pos s = (or', and') ->
  (or' = or_pos \/ (i + 2 <= or' /\ or' + 2 <= i + Z.of_nat (length s))) /\
  (and' = and_pos \/ (i + 2 <= and' /\ and' + 3 <= i + Z.of_nat (length s))).
Proof.
  induction s as [|char rest IH]; intros i depth or_pos and_pos or' and' H.
  - simpl in H. injection H as <- <-. auto.
  - cbn [find_operators] in H.
    assert (Hlen : Z.of_nat (length (char :: rest)) = 1 + Z.of_nat (length rest))
      by (simpl length; lia).
    destruct (chr_eqb char "("%char);
      [apply IH in H; destruct H as [[-> | ?] [-> | ?]]; split; auto; right; lia|].
    destruct (chr_eqb char ")"%char);
      [apply IH in H; destruct H as [[-> | ?] [-> | ?]]; split; auto; right; lia|].
    destruct (depth =? 0);
      [|apply IH in H; destruct H as [[-> | ?] [-> | ?]]; split; auto; right; lia].
    destruct (startswith (char :: rest) (py " or ")) eqn:Hor.
    { apply startswith_length in Hor. change (length (py " or ")) with 4%nat in Hor.
      apply IH in H. destruct H as [[-> | ?] [-> | ?]]; split; auto; right; lia. }
    destruct (startswith (char :: rest) (py " and ")) eqn:Hand.
    { apply startswith_length in Hand. change (length (py " and ")) with 5%nat in Hand.
      apply IH in H. destruct H as [[-> | ?] [Ha | ?]]; split; auto; try (right; lia).
      - destruct (and_pos =? -1); [right; lia | auto].
      - destruct (and_pos =? -1); [right; lia | auto]. }
    apply IH in H. destruct H as [[-> | ?] [-> | ?]]; split; auto; right; lia.
Qed.

(** The operands of a split are strictly shorter than the condition the
    scan ran on. *)
Lemma split_operands_shorter (c : pystr) or_pos and_pos :
  find_operators 0 0 (-1) (-1) c = (or_pos, and_pos) ->
  (or_pos <> -1 ->
     (length (strip (slice_to c (or_pos - 2))) < length c)%nat /\
     (length (strip (slice_from c (or_pos + 2))) < length c)%nat) /\
  (and_pos <> -1 ->
     (length (strip (slice_to c (and_pos - 2))) < length c)%nat /\
     (length (strip (slice_from c (and_pos + 3))) < length c)%nat).
Proof.
  intros H. apply find_operators_bounds in H. destruct H as [Ho Ha].
  split; intros Hne.
  - destruct Ho as [? | [Ho1 Ho2]]; [congruence|].
    pose proof (strip_length (slice_to c (or_pos - 2))).
    pose proof (strip_length (slice_from c (or_pos + 2))).
    unfold slice_to, slice_from in *.
    rewrite length_firstn in *. rewrite length_skipn in *. lia.
  - destruct Ha as [? | [Ha1 Ha2]]; [congruence|].
    pose proof (strip_length (slice_to c (and_pos - 2))).
    pose proof (strip_length (slice_from c (and_pos + 3))).
    unfold slice_to, slice_from in *.
    rewrite length_firstn in *. rewrite length_skipn in *. lia.
Qed.

Lemma evaluate_fuel_eq fuel (c : pystr) cfg :
  evaluate_fuel (S fuel) c cfg =
  match remove_outer_parens (length (strip c)) (strip c) with
  | None => None
  | Some c' =>
      let '(or_pos, and_pos) := find_operators 0 0 (-1) (-1) c' in
      if negb (or_pos =? -1) then
        match evaluate_fuel fuel (strip (slice_to c' (or_pos - 2))) cfg with
        | None => None
        | Some l => or_else l (evaluate_fuel fuel (strip (slice_from c' (or_pos + 2))) cfg)
        end
      else if negb (and_pos =? -1) then
        match evaluate_fuel fuel (strip (slice_to c' (and_pos - 2))) cfg with
        | None => None
        | Some l => and_then l (evaluate_fuel fuel (strip (slice_from c' (and_pos + 3))) cfg)
        end
      else Some (_evaluate_single_condition c' cfg)
  end.
Proof. reflexivity. Qed.

Lemma or_else_some a b : (exists r, b = Some r) -> exists r, or_else a b = Some r.
Proof. intros [r ->]. destruct a as [[|]|]; simpl; eauto. Qed.

Lemma and_then_some a b : (exists r, b = Some r) -> exists r, and_then a b = Some r.
Proof. intros [r ->]. destruct a as [[|]|]; simpl; eauto. Qed.

Lemma evaluate_fuel_enough cfg fuel : forall c : pystr,
  (length c < fuel)%nat -> exists r, evaluate_fuel fuel c cfg = Some r.
Proof.
  induction fuel as [|fuel IH]; intros c Hlen; [lia|].
  rewrite evaluate_fuel_eq.
  pose proof (strip_length c) as Hs.
  destruct (remove_outer_parens_enough (length (strip c)) (strip c)) as (c' & -> & Hc');
    [lia|].
  destruct (find_operators 0 0 (-1) (-1) c') as [or_pos and_pos] eqn:Hf.
  apply split_operands_shorter in Hf. destruct Hf as [Ho Ha].
  destruct (Z.eqb_spec or_pos (-1)) as [_|Hne]; simpl.
  - destruct (Z.eqb_spec and_pos (-1)) as [_|Hne]; simpl; [eauto|].
    destruct (Ha Hne) as [Hl Hr].
    destruct (IH (strip (slice_to c' (and_pos - 2)))) as [l ->]; [lia|].
    apply and_then_some. apply IH. lia.
  - destruct (Ho Hne) as [Hl Hr].
    destruct (IH (strip (slice_to c' (or_pos - 2)))) as [l ->]; [lia|].
    apply or_else_some. apply IH. lia.
Qed.

(** Any two bounds above the length of the condition give the same result. *)
Lemma evaluate_fuel_irrel cfg n : forall m (c : pystr),
  (length c < n)%nat -> (length c < m)%nat ->
  evaluate_fuel n c cfg = evaluate_fuel m c cfg.
Proof.
  induction n as [|n IH]; intros m c Hn Hm; [lia|].
  destruct m as [|m]; [lia|].
  rewrite !evaluate_fuel_eq.
  pose proof (strip_length c) as Hs.
  destruct (remove_outer_parens_enough (length (strip c)) (strip c)) as (c' & -> & Hc');
    [lia|].
  destruct (find_operators 0 0 (-1) (-1) c') as [or_pos and_pos] eqn:Hf.
  apply split_operands_shorter in Hf. destruct Hf as [Ho Ha].
  destruct (Z.eqb_spec or_pos (-1)) as [_|Hne]; simpl.
  - destruct (Z.eqb_spec and_pos (-1)) as [_|Hne]; simpl; [reflexivity|].
    destruct (Ha Hne) as [Hl Hr].
    rewrite (IH m (strip (slice_to c' (and_pos - 2)))) by lia.
    rewrite (IH m (strip (slice_from c' (and_pos + 3)))) by lia. reflexivity.
  - destruct (Ho Hne) as [Hl Hr].
    rewrite (IH m (strip (slice_to c' (or_pos - 2)))) by lia.
    rewrite (IH m (strip (slice_from c' (or_pos + 2)))) by lia. reflexivity.
Qed.

End EvaluatorRecursion.

(** ** Substrings *)

Section Substrings.

Lemma substring_refl (a : pystr) : substring_of a a.
Proof. exists [], []. simpl. now rewrite app_nil_r. Qed.

Lemma substring_trans (a b c : pystr) :
  substring_of a b -> substring_of b c -> substring_of a c.
Proof.
  intros (l1 & r1 & ->) (l2 & r2 & ->).
  exists (l2 ++ l1), (r1 ++ r2). now rewrite <- !app_assoc.
Qed.

Lemma chr_eqb_eq a b : chr_eqb a b = true <-> a = b.
Proof. apply Ascii.eqb_eq. Qed.

Lemma chr_eqb_refl a : chr_eqb a a = true.
Proof. now apply chr_eqb_eq. Qed.

Lemma str_eqb_eq (a b : pystr) : str_eqb a b = true <-> a = b.
Proof.
  revert b; induction a as [|x a IH]; intros [|y b]; simpl; try (split; congruence).
  rewrite andb_true_iff, chr_eqb_eq, IH. split; [intros [-> ->]; reflexivity|].
  intros H; injection H; auto.
Qed.

Lemma startswith_iff (s p : pystr) :
  startswith s p = true <-> exists r, s = p ++ r.
Proof.
  revert s; induction p as [|a p IH]; intros s; simpl.
  - split; eauto.
  - destruct s as [|b s].
    + split; [discriminate | intros [r Hr]; discriminate].
    + rewrite andb_true_iff, chr_eqb_eq, IH. split.
      * intros [-> [r ->]]. eauto.
      * intros [r Hr]. injection Hr as -> ->. eauto.
Qed.

Lemma startswith_app (p r : pystr) : startswith (p ++ r) p = true.
Proof. apply startswith_iff. eauto. Qed.

Lemma contains_iff (sub s : pystr) :
  contains sub s = true <-> substring_of sub s.
Proof.
  induction s as [|c s IH]; simpl.
  - rewrite orb_false_r, startswith_iff. split.
    + intros [r Hr]. exists [], r. exact Hr.
    + intros (l & r & H). destruct l as [|x l]; [simpl in H; eauto|discriminate].
  - rewrite orb_true_iff, startswith_iff, IH. split.
    + intros [[r Hr] | (l & r & ->)].
      * exists [], r. exact Hr.
      * exists (c :: l), r. reflexivity.
    + intros (l & r & H). destruct l as [|x l].
      * left. eauto.
      * right. injection H as -> ->. exists l, r. reflexivity.
Qed.

Lemma contains_substring (sub a b : pystr) :
  substring_of a b -> contains sub a = true -> contains sub b = true.
Proof.
  rewrite !contains_iff. intros H1 H2. eapply substring_trans; eauto.
Qed.

Lemma not_contains_substring (sub a b : pystr) :
  substring_of a b -> contains sub b = false -> contains sub a = false.
Proof.
  intros H Hb. destruct (contains sub a) eqn:Ha; [|reflexivity].
  rewrite (contains_substring _ _ _ H Ha) in Hb. discriminate.
Qed.

Lemma lstrip_by_suffix p (s : pystr) : exists l, s = l ++ lstrip_by p s.
Proof.
  induction s as [|c s [l IH]]; simpl.
  - exists []. reflexivity.
  - destruct (p c).
    + exists (c :: l). simpl. now f_equal.
    + exists []. reflexivity.
Qed.

Lemma rstrip_by_prefix p (s : pystr) : exists r, s = rstrip_by p s ++ r.
Proof.
  unfold rstrip_by. destruct (lstrip_by_suffix p (rev s)) as [l Hl].
  exists (rev l). rewrite <- rev_app_distr, <- Hl. now rewrite rev_involutive.
Qed.

Lemma strip_by_substring p (s : pystr) : substring_of (strip_by p s) s.
Proof.
  unfold strip_by.
  destruct (lstrip_by_suffix p s) as [l Hl].
  destruct (rstrip_by_prefix p (lstrip_by p s)) as [r Hr].
  exists l, r. now rewrite <- Hr.
Qed.

Lemma strip_substring (s : pystr) : substring_of (strip s) s.
Proof. apply strip_by_substring. Qed.

Lemma removelast_prefix (s : pystr) : exists r, s = removelast s ++ r.
Proof.
  destruct s as [|c s]; [exists []; reflexivity|].
  exists [List.last (c :: s) c]. apply app_removelast_last. discriminate.
Qed.

Lemma slice_1_m1_substring (s : pystr) : substring_of (slice_1_m1 s) s.
Proof.
  unfold slice_1_m1. destruct (removelast_prefix (tl s)) as [r Hr].
  destruct s as [|c s]; simpl in *.
  - exists [], []. reflexivity.
  - exists [c], r. simpl. now f_equal.
Qed.

Lemma slice_to_substring (s : pystr) n : substring_of (slice_to s n) s.
Proof.
  exists [], (skipn (Z.to_nat n) s). simpl. symmetry. apply firstn_skipn.
Qed.

Lemma slice_from_substring (s : pystr) n : substring_of (slice_from s n) s.
Proof.
  exists (firstn (Z.to_nat n) s), []. rewrite app_nil_r. symmetry. apply firstn_skipn.
Qed.

Lemma remove_outer_parens_substring fuel : forall c c' : pystr,
  Cond.remove_outer_parens fuel c = Some c' -> substring_of c' c.
Proof.
  induction fuel as [|fuel IH]; intros c c'; rewrite remove_outer_parens_eq.
  - destruct (negb _); [intros [= <-]; apply substring_refl|].
    destruct (negb _); [intros [= <-]; apply substring_refl|discriminate].
  - destruct (negb _); [intros [= <-]; apply substring_refl|].
    destruct (negb _); [intros [= <-]; apply substring_refl|].
    intros H. apply IH in H.
    eapply substring_trans; [exact H|].
    eapply substring_trans; [apply strip_substring|apply slice_1_m1_substring].
Qed.

End Substrings.

(** ** Conditions of unknown format *)

Section UnknownFormat.

Import Cond.

Lemma has_operator_token_substring (a b : pystr) :
  substring_of a b -> has_operator_token b = false -> has_operator_token a = false.
Proof.
  intros Hsub. unfold has_operator_token, operator_tokens. cbn [existsb].
  rewrite !orb_false_iff. intros (H1 & H2 & H3 & H4 & H5 & H6 & _).
  repeat split; eauto using not_contains_substring.
Qed.

Lemma single_no_token (c : pystr) cfg :
  has_operator_token c = false -> _evaluate_single_condition c cfg = Ret true.
Proof.
  intros H. apply (has_operator_token_substring _ _ (strip_substring c)) in H.
  unfold has_operator_token, operator_tokens in H. cbn [existsb] in H.
  rewrite !orb_false_iff in H. destruct H as (H1 & H2 & H3 & H4 & H5 & H6 & _).
  unfold _evaluate_single_condition. cbv zeta.
  now rewrite H1, H2, H3, H4, H5, H6.
Qed.

Lemma single_not_comparison (c : pystr) cfg :
  is_comparison c = false -> _evaluate_single_condition c cfg = Ret true.
Proof.
  unfold is_comparison, first_operator, operator_tokens, _evaluate_single_condition.
  cbn [List.find]. cbv zeta.
  repeat match goal with
  | |- context [if contains ?op (strip c) then _ else _] =>
      destruct (contains op (strip c))
  end;
  try reflexivity;
  match goal with
  | |- context [split ?op (strip c)] =>
      destruct (split op (strip c)) as [|p0 [|p1 [|p2 ps]]]; simpl;
      (reflexivity || discriminate)
  end.
Qed.

Lemma single_threshold_not_integer (c : pystr) cfg :
  is_comparison c = true -> well_formed_comparison c = false ->
  _evaluate_single_condition c cfg = Ret false.
Proof.
  unfold is_comparison, well_formed_comparison, first_operator, operator_tokens,
    _evaluate_single_condition.
  cbn [List.find]. cbv zeta.
  repeat match goal with
  | |- context [if contains ?op (strip c) then _ else _] =>
      destruct (contains op (strip c))
  end;
  try discriminate;
  match goal with
  | |- context [split ?op (strip c)] =>
      destruct (split op (strip c)) as [|p0 [|p1 [|p2 ps]]]; simpl;
      try discriminate
  end.
  all: intros _; unfold threshold_result;
    destruct (int_of_str (strip p1)); [discriminate|reflexivity].
Qed.

Lemma evaluate_fuel_no_token cfg fuel : forall c : pystr,
  (length c < fuel)%nat -> has_operator_token c = false ->
  evaluate_fuel fuel c cfg = Some (Ret true).
Proof.
  induction fuel as [|fuel IH]; intros c Hlen Hno; [lia|].
  rewrite evaluate_fuel_eq.
  pose proof (strip_length c) as Hs.
  destruct (remove_outer_parens_enough (length (strip c)) (strip c)) as (c' & Hc' & Hlc');
    [lia|].
  rewrite Hc'. apply remove_outer_parens_substring in Hc'.
  assert (Hsub : substring_of c' c)
    by (eapply substring_trans; [exact Hc'|apply strip_substring]).
  assert (Hno' : has_operator_token c' = false)
    by (eapply has_operator_token_substring; eauto).
  destruct (find_operators 0 0 (-1) (-1) c') as [or_pos and_pos] eqn:Hf.
  apply split_operands_shorter in Hf. destruct Hf as [Ho Ha].
  assert (Hpiece : forall p : pystr, substring_of p c' -> (length (strip p) < fuel)%nat ->
            evaluate_fuel fuel (strip p) cfg = Some (Ret true)).
  { intros p Hp Hl. apply IH; [exact Hl|].
    eapply has_operator_token_substring; [|exact Hno'].
    eapply substring_trans; [apply strip_substring|exact Hp]. }
  destruct (Z.eqb_spec or_pos (-1)) as [_|Hne]; simpl.
  - destruct (Z.eqb_spec and_pos (-1)) as [_|Hne]; simpl.
    + f_equal. now apply single_no_token.
    + destruct (Ha Hne) as [Hl Hr].
      rewrite !Hpiece by (try apply slice_to_substring; try apply slice_from_substring; lia).
      reflexivity.
  - destruct (Ho Hne) as [Hl Hr].
    rewrite !Hpiece by (try apply slice_to_substring; try apply slice_from_substring; lia).
    reflexivity.
Qed.

End UnknownFormat.

(** ** Expressions are evaluated with standard precedence *)

Section Scanning.

Import Cond.

Lemma closed_app s1 s2 : closed s1 -> closed s2 -> closed (s1 ++ s2).
Proof.
  induction 1 as [|c s Hc Hs IH|a b Ha IHa Hb IHb]; intros H2.
  - exact H2.
  - simpl. constructor; auto.
  - rewrite <- !app_assoc. apply closed_paren; auto.
Qed.

Lemma closed_no_paren (s : pystr) : forallb not_paren s = true -> closed s.
Proof.
  induction s as [|c s IH]; simpl; [constructor|].
  intros H. apply andb_true_iff in H as [Hc Hs]. constructor; auto.
Qed.

Lemma not_paren_spec c :
  not_paren c = true -> chr_eqb c "("%char = false /\ chr_eqb c ")"%char = false.
Proof.
  unfold not_paren. rewrite andb_true_iff, !negb_true_iff. tauto.
Qed.

(** Inside parentheses the scan records nothing. *)
Lemma find_operators_deep s : closed s ->
  forall i depth or_pos and_pos rest, 0 < depth ->
  find_operators i depth or_pos and_pos (s ++ rest) =
  find_operators (i + Z.of_nat (length s)) depth or_pos and_pos rest.
Proof.
  induction 1 as [|c s Hc Hs IH|a b Ha IHa Hb IHb]; intros i depth or_pos and_pos rest Hd.
  - simpl. f_equal. lia.
  - apply not_paren_spec in Hc as [Hc1 Hc2].
    cbn [app find_operators]. rewrite Hc1, Hc2.
    destruct (Z.eqb_spec depth 0); [lia|].
    rewrite IH by lia. f_equal. simpl length. lia.
  - change ((py "(" ++ a ++ py ")" ++ b) ++ rest) with ("("%char :: ((a ++ py ")" ++ b) ++ rest)).
    cbn [find_operators]. change (chr_eqb "(" "(") with true. cbv iota.
    rewrite <- app_assoc. rewrite IHa by lia.
    change ((py ")" ++ b) ++ rest) with (")"%char :: (b ++ rest)).
    cbn [find_operators]. change (chr_eqb ")" "(") with false. change (chr_eqb ")" ")") with true.
    cbv iota. rewrite IHb by lia.
    f_equal; simpl length; rewrite ?length_app; simpl length; lia.
Qed.

Lemma is_outer_deep s : closed s ->
  forall depth rest, 0 < depth ->
  is_outer_from depth (s ++ rest) = is_outer_from depth rest.
Proof.
  induction 1 as [|c s Hc Hs IH|a b Ha IHa Hb IHb]; intros depth rest Hd.
  - reflexivity.
  - apply not_paren_spec in Hc as [Hc1 Hc2].
    cbn [app is_outer_from]. rewrite Hc1, Hc2. now apply IH.
  - change ((py "(" ++ a ++ py ")" ++ b) ++ rest) with ("("%char :: ((a ++ py ")" ++ b) ++ rest)).
    cbn [is_outer_from]. change (chr_eqb "(" "(") with true. cbv iota.
    rewrite <- app_assoc. rewrite IHa by lia.
    change ((py ")" ++ b) ++ rest) with (")"%char :: (b ++ rest)).
    cbn [is_outer_from]. change (chr_eqb ")" "(") with false. change (chr_eqb ")" ")") with true.
    cbv iota zeta.
    destruct (Z.eqb_spec (depth + 1 - 1) 0); [lia|]. cbn [andb].
    replace (depth + 1 - 1) with depth by lia. now apply IHb.
Qed.

End Scanning.

Section Atoms.

Import Cond.

Lemma is_atom_spec a :
  is_atom a = true ->
  a <> [] /\ is_space (hd " "%char a) = false /\ is_space (List.last a " "%char) = false /\
  forallb not_paren a = true /\
  contains (py " or ") (py " " ++ a ++ py " ") = false /\
  contains (py " and ") (py " " ++ a ++ py " ") = false.
Proof.
  unfold is_atom. rewrite !andb_true_iff, !negb_true_iff.
  intros [[[[[H1 H2] H3] H4] H5] H6]. repeat split; auto.
  intros ->. discriminate.
Qed.

Lemma padded_window (w a pre t : pystr) :
  contains w (py " " ++ a ++ py " ") = false ->
  py " " ++ a = pre ++ t -> forall r, t ++ py " " = w ++ r -> False.
Proof.
  intros Hno Hpre r Hr.
  assert (Hc : contains w (py " " ++ a ++ py " ") = true).
  { apply contains_iff. exists pre, r.
    rewrite <- Hr. rewrite !app_assoc. rewrite <- Hpre. now rewrite <- app_assoc. }
  congruence.
Qed.

Lemma atom_last_not_space a pre :
  a <> [] -> is_space (List.last a " "%char) = false ->
  py " " ++ a = pre ++ py " " -> False.
Proof.
  intros Hne Hlast Heq.
  assert (H : List.last (py " " ++ a) " "%char = " "%char)
    by (rewrite Heq; apply last_last).
  destruct a as [|c a]; [congruence|].
  change (List.last (py " " ++ c :: a) " "%char) with (List.last (c :: a) " "%char) in H.
  rewrite H in Hlast. discriminate.
Qed.

Lemma atom_no_window a pre t rest :
  is_atom a = true -> py " " ++ a = pre ++ t -> t <> [] -> delimited rest ->
  startswith (t ++ rest) (py " or ") = false /\
  startswith (t ++ rest) (py " and ") = false.
Proof.
  intros Ha Hpre Ht Hrest.
  apply is_atom_spec in Ha as (Hne & _ & Hlast & _ & Hor & Hand).
  split.
  - destruct (startswith (t ++ rest) (py " or ")) eqn:Hs; [exfalso|reflexivity].
    apply startswith_iff in Hs as [r Hr].
    destruct t as [|c1 [|c2 [|c3 [|c4 t']]]]; [congruence| | | |].
    + injection Hr as -> Hr. exact (atom_last_not_space a pre Hne Hlast Hpre).
    + injection Hr as -> -> Hr. destruct rest as [|x rest]; [discriminate|].
      injection Hr as -> _. destruct Hrest; discriminate.
    + injection Hr as -> -> -> Hr.
      eapply (padded_window (py " or ") a pre _ Hor Hpre []). reflexivity.
    + injection Hr as -> -> -> -> Hr.
      eapply (padded_window (py " or ") a pre _ Hor Hpre (t' ++ py " ")). reflexivity.
  - destruct (startswith (t ++ rest) (py " and ")) eqn:Hs; [exfalso|reflexivity].
    apply startswith_iff in Hs as [r Hr].
    destruct t as [|c1 [|c2 [|c3 [|c4 [|c5 t']]]]]; [congruence| | | | |].
    + injection Hr as -> Hr. exact (atom_last_not_space a pre Hne Hlast Hpre).
    + injection Hr as -> -> Hr. destruct rest as [|x rest]; [discriminate|].
      injection Hr as -> _. destruct Hrest; discriminate.
    + injection Hr as -> -> -> Hr. destruct rest as [|x rest]; [discriminate|].
      injection Hr as -> _. destruct Hrest; discriminate.
    + injection Hr as -> -> -> -> Hr.
      eapply (padded_window (py " and ") a pre _ Hand Hpre []). reflexivity.
    + injection Hr as -> -> -> -> -> Hr.
      eapply (padded_window (py " and ") a pre _ Hand Hpre (t' ++ py " ")). reflexivity.
Qed.

(** Outside parentheses the scan passes over a comparison without
    recording an operator. *)
Lemma find_operators_atom_suffix a rest :
  is_atom a = true -> delimited rest ->
  forall t pre, py " " ++ a = pre ++ t -> pre <> [] ->
  forall i or_pos and_pos,
  find_operators i 0 or_pos and_pos (t ++ rest) =
  find_operators (i + Z.of_nat (length t)) 0 or_pos and_pos rest.
Proof.
  intros Ha Hrest. induction t as [|c t IH]; intros pre Hpre Hne i or_pos and_pos.
  - simpl. f_equal. lia.
  - destruct (atom_no_window a pre (c :: t) rest Ha Hpre ltac:(discriminate) Hrest) as [Ho Hn].
    assert (Hc : not_paren c = true).
    { pose proof (is_atom_spec a Ha) as (_ & _ & _ & Hall & _).
      rewrite forallb_forall in Hall. apply Hall.
      destruct pre as [|p pre]; [congruence|].
      injection Hpre as _ ->. apply in_or_app. right. now left. }
    apply not_paren_spec in Hc as [Hc1 Hc2].
    cbn [app find_operators]. rewrite Hc1, Hc2.
    change (0 =? 0) with true. cbv iota.
    cbn [app] in Ho, Hn. rewrite Ho, Hn.
    rewrite (IH (pre ++ [c])).
    + f_equal. simpl length. lia.
    + rewrite <- app_assoc. exact Hpre.
    + destruct pre; discriminate.
Qed.

Lemma find_operators_atom a rest i or_pos and_pos :
  is_atom a = true -> delimited rest ->
  find_operators i 0 or_pos and_pos (a ++ rest) =
  find_operators (i + Z.of_nat (length a)) 0 or_pos and_pos rest.
Proof.
  intros Ha Hrest.
  apply (find_operators_atom_suffix a rest Ha Hrest a (py " ")); [reflexivity|discriminate].
Qed.

End Atoms.

Section Rendered.

Import Cond.

Lemma trimmed_strip s : trimmed s -> strip s = s.
Proof.
  intros (Hne & Hh & Hl). unfold strip, strip_by.
  assert (H1 : lstrip_by is_space s = s).
  { destruct s as [|c s]; [congruence|]. simpl in *. now rewrite Hh. }
  rewrite H1. unfold rstrip_by.
  destruct (exists_last Hne) as (s' & x & ->).
  rewrite last_last in Hl. rewrite rev_app_distr. simpl. rewrite Hl.
  change (x :: rev s') with ([x] ++ rev s'). rewrite rev_app_distr.
  simpl. now rewrite rev_involutive.
Qed.

Lemma trimmed_join s1 mid s2 : trimmed s1 -> trimmed s2 -> trimmed (s1 ++ mid ++ s2).
Proof.
  intros (N1 & H1 & _) (N2 & _ & L2). split; [|split].
  - destruct s1; [congruence|discriminate].
  - destruct s1; [congruence|exact H1].
  - destruct (exists_last N2) as (s' & x & ->).
    rewrite last_last in L2. rewrite !app_assoc. now rewrite last_last.
Qed.

Lemma trimmed_paren s : trimmed (py "(" ++ s ++ py ")").
Proof.
  split; [discriminate|]. split; [reflexivity|].
  rewrite (app_assoc (py "(") s (py ")")). change (py ")") with [")"%char].
  now rewrite last_last.
Qed.

Lemma render_trimmed :
  (forall d, wf_disj d = true -> trimmed (render_disj d)) /\
  (forall c, wf_conj c = true -> trimmed (render_conj c)) /\
  (forall f, wf_factor f = true -> trimmed (render_factor f)).
Proof.
  apply expr_mutind; cbn [render_disj render_conj render_factor wf_disj wf_conj wf_factor].
  - auto.
  - intros d IHd c IHc H. apply andb_true_iff in H as [Hd Hc].
    apply (trimmed_join _ (py " or ")); auto.
  - auto.
  - intros f IHf c IHc H. apply andb_true_iff in H as [Hf Hc].
    apply (trimmed_join _ (py " and ")); auto.
  - intros a H. apply is_atom_spec in H as (? & ? & ? & _). unfold trimmed. auto.
  - intros d _ _. apply trimmed_paren.
Qed.

Lemma render_closed :
  (forall d, wf_disj d = true -> closed (render_disj d)) /\
  (forall c, wf_conj c = true -> closed (render_conj c)) /\
  (forall f, wf_factor f = true -> closed (render_factor f)).
Proof.
  apply expr_mutind; cbn [render_disj render_conj render_factor wf_disj wf_conj wf_factor].
  - auto.
  - intros d IHd c IHc H. apply andb_true_iff in H as [Hd Hc].
    apply closed_app; auto. apply (closed_app (py " or ")); auto.
    now apply closed_no_paren.
  - auto.
  - intros f IHf c IHc H. apply andb_true_iff in H as [Hf Hc].
    apply closed_app; auto. apply (closed_app (py " and ")); auto.
    now apply closed_no_paren.
  - intros a H. apply is_atom_spec in H as (_ & _ & _ & H & _).
    now apply closed_no_paren.
  - intros d IH H.
    replace (render_disj d ++ py ")") with (render_disj d ++ py ")" ++ []) by reflexivity.
    apply (closed_paren (render_disj d) []); auto. constructor.
Qed.

Lemma delimited_app tail rest :
  (tail = [] \/ exists r, tail = " "%char :: r) -> delimited rest -> delimited (tail ++ rest).
Proof. intros [-> | [r ->]] H; simpl; auto. Qed.

(** A conjunction and a disjunction begin with a factor. *)
Lemma conj_first_factor c :
  wf_conj c = true ->
  exists f tail, wf_factor f = true /\ render_conj c = render_factor f ++ tail /\
    ((tail = [] /\ c = CFactor f) \/ exists r, tail = " "%char :: r).
Proof.
  destruct c as [f|f c]; cbn [render_conj wf_conj]; intros H.
  - exists f, []. rewrite app_nil_r. auto.
  - apply andb_true_iff in H as [Hf _]. exists f, (py " and " ++ render_conj c).
    repeat split; auto. right. eexists. reflexivity.
Qed.

Lemma disj_first_factor d :
  wf_disj d = true ->
  exists f tail, wf_factor f = true /\ render_disj d = render_factor f ++ tail /\
    ((tail = [] /\ d = DConj (CFactor f)) \/ exists r, tail = " "%char :: r).
Proof.
  induction d as [c|d IH c]; cbn [render_disj wf_disj]; intros H.
  - destruct (conj_first_factor c H) as (f & tail & Hf & -> & [[-> ->] | [r ->]]);
      exists f; eexists; repeat split; eauto.
  - apply andb_true_iff in H as [Hd _].
    destruct (IH Hd) as (f & tail & Hf & -> & Ht).
    exists f, (tail ++ py " or " ++ render_conj c). rewrite <- app_assoc.
    repeat split; auto. right.
    destruct Ht as [[-> _] | [r ->]]; eexists; reflexivity.
Qed.

End Rendered.

Section ScanRendered.

Import Cond.

Let wf_closed_d := proj1 render_closed.
Let wf_closed_c := proj1 (proj2 render_closed).

Lemma space_before_factor f rest :
  wf_factor f = true -> delimited rest ->
  startswith (py " " ++ render_factor f ++ rest) (py " or ") = false /\
  startswith (py " " ++ render_factor f ++ rest) (py " and ") = false.
Proof.
  destruct f as [a|d]; cbn [render_factor wf_factor]; intros Hf Hrest.
  - rewrite app_assoc.
    apply (atom_no_window a [] (py " " ++ a) rest Hf); [reflexivity|discriminate|exact Hrest].
  - split; reflexivity.
Qed.

Lemma space_before_conj c rest :
  wf_conj c = true -> delimited rest ->
  startswith (py " " ++ render_conj c ++ rest) (py " or ") = false /\
  startswith (py " " ++ render_conj c ++ rest) (py " and ") = false.
Proof.
  intros Hc Hrest.
  destruct (conj_first_factor c Hc) as (f & tail & Hf & -> & Ht).
  rewrite <- app_assoc. apply space_before_factor; [exact Hf|].
  apply delimited_app; [|exact Hrest].
  destruct Ht as [[-> _] | ?]; auto.
Qed.

Lemma find_operators_factor f : wf_factor f = true ->
  forall i or_pos and_pos rest, delimited rest ->
  find_operators i 0 or_pos and_pos (render_factor f ++ rest) =
  find_operators (i + Z.of_nat (length (render_factor f))) 0 or_pos and_pos rest.
Proof.
  destruct f as [a|d]; cbn [render_factor wf_factor]; intros Hf i or_pos and_pos rest Hrest.
  - now apply find_operators_atom.
  - change ((py "(" ++ render_disj d ++ py ")") ++ rest)
      with ("("%char :: ((render_disj d ++ py ")") ++ rest)).
    cbn [find_operators]. change (chr_eqb "(" "(") with true. cbv iota.
    rewrite <- app_assoc. rewrite find_operators_deep by (auto; lia).
    change (py ")" ++ rest) with (")"%char :: rest).
    cbn [find_operators]. change (chr_eqb ")" "(") with false.
    change (chr_eqb ")" ")") with true. cbv iota.
    f_equal; simpl length; rewrite ?length_app; simpl length; lia.
Qed.

Lemma find_operators_or_sep c rest i or_pos and_pos :
  wf_conj c = true -> delimited rest ->
  find_operators i 0 or_pos and_pos (py " or " ++ render_conj c ++ rest) =
  find_operators (i + 4) 0 (i + 2) and_pos (render_conj c ++ rest).
Proof.
  intros Hc Hrest. destruct (space_before_conj c rest Hc Hrest) as [Ho Ha].
  change (py " or " ++ render_conj c ++ rest)
    with (" "%char :: "o"%char :: "r"%char :: (py " " ++ render_conj c ++ rest)).
  set (X := py " " ++ render_conj c ++ rest) in *.
  cbn [find_operators].
  change (chr_eqb " " "(") with false. change (chr_eqb " " ")") with false.
  change (chr_eqb "o" "(") with false. change (chr_eqb "o" ")") with false.
  change (chr_eqb "r" "(") with false. change (chr_eqb "r" ")") with false.
  change (0 =? 0) with true. cbv iota.
  assert (H1 : startswith (" "%char :: "o"%char :: "r"%char :: X) (py " or ") = true).
  { subst X. reflexivity. }
  rewrite H1.
  assert (H2 : startswith ("o"%char :: "r"%char :: X) (py " or ") = false) by reflexivity.
  assert (H3 : startswith ("o"%char :: "r"%char :: X) (py " and ") = false) by reflexivity.
  assert (H4 : startswith ("r"%char :: X) (py " or ") = false) by reflexivity.
  assert (H5 : startswith ("r"%char :: X) (py " and ") = false) by reflexivity.
  rewrite H2, H3, H4, H5.
  subst X. change (py " " ++ render_conj c ++ rest) with (" "%char :: (render_conj c ++ rest)) in *.
  cbn [find_operators].
  change (chr_eqb " " "(") with false. change (chr_eqb " " ")") with false.
  change (0 =? 0) with true. cbv iota. rewrite Ho, Ha.
  f_equal; lia.
Qed.

Lemma find_operators_and_sep c rest i or_pos and_pos :
  wf_conj c = true -> delimited rest ->
  find_operators i 0 or_pos and_pos (py " and " ++ render_conj c ++ rest) =
  find_operators (i + 5) 0 or_pos (if and_pos =? -1 then i + 2 else and_pos)
    (render_conj c ++ rest).
Proof.
  intros Hc Hrest. destruct (space_before_conj c rest Hc Hrest) as [Ho Ha].
  change (py " and " ++ render_conj c ++ rest)
    with (" "%char :: "a"%char :: "n"%char :: "d"%char :: (py " " ++ render_conj c ++ rest)).
  set (X := py " " ++ render_conj c ++ rest) in *.
  cbn [find_operators].
  change (chr_eqb " " "(") with false. change (chr_eqb " " ")") with false.
  change (chr_eqb "a" "(") with false. change (chr_eqb "a" ")") with false.
  change (chr_eqb "n" "(") with false. change (chr_eqb "n" ")") with false.
  change (chr_eqb "d" "(") with false. change (chr_eqb "d" ")") with false.
  change (0 =? 0) with true. cbv iota.
  assert (H0 : startswith (" "%char :: "a"%char :: "n"%char :: "d"%char :: X) (py " or ") = false)
    by reflexivity.
  assert (H1 : startswith (" "%char :: "a"%char :: "n"%char :: "d"%char :: X) (py " and ") = true).
  { subst X. reflexivity. }
  rewrite H0, H1.
  assert (H2 : startswith ("a"%char :: "n"%char :: "d"%char :: X) (py " or ") = false) by reflexivity.
  assert (H3 : startswith ("a"%char :: "n"%char :: "d"%char :: X) (py " and ") = false) by reflexivity.
  assert (H4 : startswith ("n"%char :: "d"%char :: X) (py " or ") = false) by reflexivity.
  assert (H5 : startswith ("n"%char :: "d"%char :: X) (py " and ") = false) by reflexivity.
  assert (H6 : startswith ("d"%char :: X) (py " or ") = false) by reflexivity.
  assert (H7 : startswith ("d"%char :: X) (py " and ") = false) by reflexivity.
  rewrite H2, H3, H4, H5, H6, H7.
  subst X. change (py " " ++ render_conj c ++ rest) with (" "%char :: (render_conj c ++ rest)) in *.
  cbn [find_operators].
  change (chr_eqb " " "(") with false. change (chr_eqb " " ")") with false.
  change (0 =? 0) with true. cbv iota. rewrite Ho, Ha.
  f_equal; lia.
Qed.

Lemma find_operators_conj c : wf_conj c = true ->
  forall i or_pos and_pos rest, 0 <= i -> delimited rest ->
  find_operators i 0 or_pos and_pos (render_conj c ++ rest) =
  find_operators (i + Z.of_nat (length (render_conj c))) 0 or_pos
    (conj_and i and_pos c) rest.
Proof.
  induction c as [f|f c IH]; cbn [render_conj wf_conj conj_and];
    intros Hc i or_pos and_pos rest Hi Hrest.
  - now apply find_operators_factor.
  - apply andb_true_iff in Hc as [Hf Hc].
    rewrite <- !app_assoc.
    rewrite find_operators_factor by (auto; simpl; auto).
    rewrite find_operators_and_sep by auto.
    rewrite IH by (auto; lia).
    assert (Hap : conj_and (i + Z.of_nat (length (render_factor f)) + 5)
              (if and_pos =? -1 then i + Z.of_nat (length (render_factor f)) + 2 else and_pos) c
            = (if and_pos =? -1 then i + Z.of_nat (length (render_factor f)) + 2 else and_pos)).
    { destruct c as [g|g c']; cbn [conj_and]; [reflexivity|].
      destruct (Z.eqb_spec and_pos (-1)) as [->|Hne].
      - destruct (Z.eqb_spec (i + Z.of_nat (length (render_factor f)) + 2) (-1)); [lia|reflexivity].
      - destruct (Z.eqb_spec and_pos (-1)); [lia|reflexivity]. }
    rewrite Hap. f_equal. rewrite !length_app. simpl length. lia.
Qed.

Lemma find_operators_disj_prefix d : wf_disj d = true ->
  forall tail i or_pos and_pos, 0 <= i -> delimited tail ->
  exists or1 and1,
  find_operators i 0 or_pos and_pos (render_disj d ++ tail) =
  find_operators (i + Z.of_nat (length (render_disj d))) 0 or1 and1 tail.
Proof.
  induction d as [c0|d0 IH c0]; cbn [render_disj wf_disj];
    intros Hd tail i or_pos and_pos Hi Htail.
  - rewrite find_operators_conj by auto. eauto.
  - apply andb_true_iff in Hd as [Hd0 Hc0].
    rewrite <- !app_assoc.
    destruct (IH Hd0 (py " or " ++ render_conj c0 ++ tail) i or_pos and_pos Hi)
      as (or1 & and1 & ->); [simpl; auto|].
    rewrite find_operators_or_sep by auto.
    rewrite find_operators_conj by (auto; lia).
    do 2 eexists. f_equal. rewrite !length_app. simpl length. lia.
Qed.

(** A disjunction records its last [or]. *)
Lemma find_operators_disj d c : wf_disj d = true -> wf_conj c = true ->
  forall i or_pos and_pos rest, 0 <= i -> delimited rest ->
  exists and_pos',
  find_operators i 0 or_pos and_pos (render_disj (DOr d c) ++ rest) =
  find_operators (i + Z.of_nat (length (render_disj (DOr d c)))) 0
    (i + Z.of_nat (length (render_disj d)) + 2) and_pos' rest.
Proof.
  intros Hd Hc i or_pos and_pos rest Hi Hrest.
  cbn [render_disj]. rewrite <- !app_assoc.
  destruct (find_operators_disj_prefix d Hd (py " or " ++ render_conj c ++ rest)
              i or_pos and_pos Hi) as (or1 & and1 & ->); [simpl; auto|].
  rewrite find_operators_or_sep by auto.
  rewrite find_operators_conj by (auto; lia).
  eexists. f_equal. rewrite !length_app. simpl length. lia.
Qed.

End ScanRendered.

Section Precedence.

Import Cond.

Let wf_closed_d := proj1 render_closed.
Let wf_trimmed_d := proj1 render_trimmed.
Let wf_trimmed_c := proj1 (proj2 render_trimmed).
Let wf_trimmed_f := proj2 (proj2 render_trimmed).

Lemma peel_spec cfg :
  forall d, wf_disj d = true ->
    wf_disj (peel d) = true /\ is_wrapped (peel d) = false /\
    disj_value cfg (peel d) = disj_value cfg d /\
    (length (render_disj (peel d)) <= length (render_disj d))%nat.
Proof.
  pose (Q := fun d => wf_disj d = true ->
    wf_disj (peel d) = true /\ is_wrapped (peel d) = false /\
    disj_value cfg (peel d) = disj_value cfg d /\
    (length (render_disj (peel d)) <= length (render_disj d))%nat).
  enough (H : (forall d, Q d) /\ (forall c, Q (DConj c)) /\ (forall f, Q (DConj (CFactor f))))
    by (apply H).
  apply expr_mutind; unfold Q.
  - auto.
  - intros d _ c _ H. cbn [peel is_wrapped]. auto.
  - auto.
  - intros f _ c _ H. cbn [peel is_wrapped]. auto.
  - intros a H. cbn [peel is_wrapped]. auto.
  - intros d IH H. cbn [peel]. cbn [wf_disj wf_conj wf_factor] in H.
    destruct (IH H) as (H1 & H2 & H3 & H4). repeat split; auto.
    cbn [render_disj render_conj render_factor]. rewrite !length_app. simpl length. lia.
Qed.

Lemma peel_not_wrapped d : is_wrapped d = false -> peel d = d.
Proof. destruct d as [[[a|d']|f c]|d c]; cbn; congruence. Qed.

Lemma slice_1_m1_paren (s : pystr) : slice_1_m1 (py "(" ++ s ++ py ")") = s.
Proof. unfold slice_1_m1. simpl tl. apply removelast_last. Qed.

Lemma endswith_paren (s : pystr) : endswith (py "(" ++ s ++ py ")") (py ")") = true.
Proof.
  unfold endswith. rewrite (app_assoc (py "(") s (py ")")).
  rewrite rev_app_distr. reflexivity.
Qed.

Lemma is_outer_wrapped d :
  wf_disj d = true -> is_outer_from 0 (py "(" ++ render_disj d ++ py ")") = true.
Proof.
  intros Hd. change (py "(" ++ render_disj d ++ py ")")
    with ("("%char :: (render_disj d ++ py ")")).
  cbn [is_outer_from]. change (chr_eqb "(" "(") with true. cbv iota.
  rewrite is_outer_deep by (auto; lia). reflexivity.
Qed.

Lemma is_outer_not_wrapped d tail :
  wf_disj d = true -> tail <> [] ->
  is_outer_from 0 ((py "(" ++ render_disj d ++ py ")") ++ tail) = false.
Proof.
  intros Hd Ht. change ((py "(" ++ render_disj d ++ py ")") ++ tail)
    with ("("%char :: ((render_disj d ++ py ")") ++ tail)).
  cbn [is_outer_from]. change (chr_eqb "(" "(") with true. cbv iota.
  rewrite <- app_assoc. rewrite is_outer_deep by (auto; lia).
  destruct tail as [|x tail]; [congruence|]. reflexivity.
Qed.

Lemma remove_outer_parens_exit d fuel :
  wf_disj d = true -> is_wrapped d = false ->
  remove_outer_parens fuel (render_disj d) = Some (render_disj d).
Proof.
  intros Hd Hw. rewrite remove_outer_parens_eq.
  destruct (disj_first_factor d Hd) as (f & tail & Hf & Hr & Ht).
  destruct f as [a|d'].
  - assert (Hs : startswith (render_disj d) (py "(") = false).
    { rewrite Hr. cbn [render_factor wf_factor] in *.
      apply is_atom_spec in Hf as (Hne & _ & _ & Hall & _).
      destruct a as [|x a]; [congruence|]. cbn [forallb] in Hall.
      apply andb_true_iff in Hall as [Hx _]. apply not_paren_spec in Hx as [Hx _].
      change (py "(") with ["("%char]. cbn [app startswith].
      destruct (chr_eqb "(" x) eqn:E; [|reflexivity].
      apply chr_eqb_eq in E. subst x. rewrite chr_eqb_refl in Hx. discriminate. }
    now rewrite Hs.
  - assert (Ho : is_outer_from 0 (render_disj d) = false).
    { rewrite Hr. apply is_outer_not_wrapped; [exact Hf|].
      destruct Ht as [[-> ->] | [r ->]]; [discriminate Hw|discriminate]. }
    rewrite Ho. cbn [negb]. now destruct (negb _).
Qed.

Lemma remove_outer_parens_render fuel : forall d,
  wf_disj d = true -> (length (render_disj d) <= fuel)%nat ->
  remove_outer_parens fuel (render_disj d) = Some (render_disj (peel d)).
Proof.
  induction fuel as [|fuel IH]; intros d Hd Hlen.
  - pose proof (wf_trimmed_d d Hd) as (Hne & _). destruct (render_disj d); [congruence|].
    simpl in Hlen. lia.
  - destruct (is_wrapped d) eqn:Hw.
    + destruct d as [[[a|d']|f c]|d c]; try discriminate Hw.
      cbn [peel render_disj render_conj render_factor] in *.
      cbn [wf_disj wf_conj wf_factor] in Hd.
      rewrite remove_outer_parens_eq.
      rewrite endswith_paren, is_outer_wrapped by exact Hd.
      change (startswith (py "(" ++ render_disj d' ++ py ")") (py "(")) with true.
      cbn [andb negb]. rewrite slice_1_m1_paren.
      rewrite trimmed_strip by auto.
      apply IH; [exact Hd|]. rewrite !length_app in Hlen. simpl length in Hlen. lia.
    + rewrite (peel_not_wrapped d Hw). now apply remove_outer_parens_exit.
Qed.

Lemma or_else_outcome a b : or_else a (Some b) = Some (or_outcome a b).
Proof. destruct a as [[|]|]; reflexivity. Qed.

Lemma and_then_outcome a b : and_then a (Some b) = Some (and_outcome a b).
Proof. destruct a as [[|]|]; reflexivity. Qed.

Lemma slice_to_app (l r : pystr) n :
  n = Z.of_nat (length l) -> slice_to (l ++ r) n = l.
Proof.
  intros ->. unfold slice_to. rewrite Nat2Z.id.
  rewrite firstn_app, Nat.sub_diag, firstn_all. simpl. apply app_nil_r.
Qed.

Lemma slice_from_app (l m r : pystr) n :
  n = Z.of_nat (length l + length m) -> slice_from (l ++ m ++ r) n = r.
Proof.
  intros ->. unfold slice_from. rewrite Nat2Z.id.
  rewrite app_assoc. rewrite skipn_app, length_app, Nat.sub_diag.
  rewrite skipn_all2 by (rewrite length_app; lia). reflexivity.
Qed.

Lemma evaluate_fuel_render cfg fuel : forall d,
  wf_disj d = true -> (length (render_disj d) < fuel)%nat ->
  evaluate_fuel fuel (render_disj d) cfg = Some (disj_value cfg d).
Proof.
  induction fuel as [|fuel IH]; intros d Hd Hlen; [lia|].
  rewrite evaluate_fuel_eq.
  rewrite trimmed_strip by auto.
  rewrite remove_outer_parens_render by auto.
  destruct (peel_spec cfg d Hd) as (Hwf & Hw & Hv & Hl).
  rewrite <- Hv. clear Hv.
  destruct (peel d) as [[[a|d']|f c]|d1 c]; try discriminate Hw.
  - (* a comparison *)
    cbn [render_disj render_conj render_factor disj_value conj_value factor_value] in *.
    cbn [wf_disj wf_conj wf_factor] in Hwf.
    rewrite <- (app_nil_r a) at 1.
    rewrite find_operators_atom by (auto; exact I).
    cbn [find_operators]. reflexivity.
  - (* a conjunction: split at the first [and] *)
    pose proof Hwf as Hwf'. cbn [wf_disj wf_conj] in Hwf'.
    apply andb_true_iff in Hwf' as [Hf Hc].
    cbn [render_disj].
    rewrite <- (app_nil_r (render_conj (CAnd f c))) at 1.
    rewrite find_operators_conj by (auto; try lia; exact I).
    cbn [find_operators conj_and]. change (-1 =? -1) with true. cbv iota.
    destruct (Z.eqb_spec (0 + Z.of_nat (length (render_factor f)) + 2) (-1)) as [?|_]; [lia|].
    cbn [negb render_conj].
    rewrite slice_to_app by lia.
    rewrite (slice_from_app (render_factor f) (py " and ")) by (simpl length; lia).
    rewrite !trimmed_strip by auto.
    cbn [render_disj render_conj] in Hl. rewrite !length_app in Hl. simpl length in Hl.
    pose proof (IH (DConj (CFactor f)) Hf) as E1.
    pose proof (IH (DConj c) Hc) as E2.
    cbn [render_disj render_conj disj_value conj_value] in E1, E2.
    rewrite E1, E2 by lia.
    rewrite and_then_outcome. reflexivity.
  - (* a disjunction: split at the last [or] *)
    pose proof Hwf as Hwf'. cbn [wf_disj] in Hwf'.
    apply andb_true_iff in Hwf' as [Hd1 Hc].
    rewrite <- (app_nil_r (render_disj (DOr d1 c))) at 1.
    destruct (find_operators_disj d1 c Hd1 Hc 0 (-1) (-1) []) as [ap ->]; [lia|exact I|].
    cbn [find_operators].
    destruct (Z.eqb_spec (0 + Z.of_nat (length (render_disj d1)) + 2) (-1)) as [?|_]; [lia|].
    cbn [negb render_disj].
    rewrite slice_to_app by lia.
    rewrite (slice_from_app (render_disj d1) (py " or ")) by (simpl length; lia).
    rewrite !trimmed_strip by auto.
    cbn [render_disj] in Hl. rewrite !length_app in Hl. simpl length in Hl.
    pose proof (IH (DConj c) Hc) as E2.
    cbn [render_disj disj_value] in E2.
    rewrite (IH d1), E2 by (auto; lia).
    rewrite or_else_outcome. reflexivity.
Qed.

End Precedence.

(** ** Splitting a string that does not hold the separator *)

Section SplitFacts.




End SplitFacts.

(** ** The claims about the condition evaluator *)

Section ConditionClaims.

Import Cond.

Lemma policy_equal_deterministic actual literal b1 b2 :
  policy_equal actual literal b1 -> policy_equal actual literal b2 -> b1 = b2.
Proof.
  intros H1 H2. destruct H1 as [Hb|n m Hb Hn Hm|Hb Hs], H2 as [Hb'|n' m' Hb' Hn' Hm'|Hb' Hs'];
    try congruence.
  - destruct Hs' as [?|?]; congruence.
  - destruct Hs as [?|?]; congruence.
Qed.




(** C1, the claim as stated fails: [phases >= abc] is not a well-formed
    comparison (the right-hand side of [>=] is not an integer), yet it
    evaluates to false, not true. *)
Lemma fail_open_counterexample :
  well_formed_comparison (py "phases >= abc") = false /\
  _evaluate_single_condition (py "phases >= abc") ∅ = Ret false /\
  _evaluate_condition (py "phases >= abc") ∅ = Some (Ret false) /\
  ~ (forall (condition : pystr) (cfg : config),
        well_formed_comparison condition = false ->
        _evaluate_condition condition cfg = Some (Ret true)).
Proof.
  repeat split; try reflexivity.
  intros H. specialize (H (py "phases >= abc") ∅ eq_refl). vm_compute in H. discriminate.
Qed.

(** C1, amended.  A condition evaluates to true under every configuration
    when it contains no operator token at all, or (for a single condition)
    when the first operator token it contains does not split it into
    exactly two parts.  A [>=] or [>] comparison of two parts whose
    right-hand side is not an integer literal evaluates to false. *)
Theorem fail_open_unknown_format (condition : pystr) (cfg : config) :
  (has_operator_token condition = false ->
     _evaluate_condition condition cfg = Some (Ret true) /\
     _evaluate_single_condition condition cfg = Ret true) /\
  (is_comparison condition = false ->
     _evaluate_single_condition condition cfg = Ret true) /\
  (is_comparison condition = true -> well_formed_comparison condition = false ->
     _evaluate_single_condition condition cfg = Ret false).
Proof.
  split; [|split].
  - intros H. split; [|now apply single_no_token].
    apply evaluate_fuel_no_token; [lia|exact H].
  - apply single_not_comparison.
  - apply single_threshold_not_integer.
Qed.

Lemma fail_open_unknown_format_witness :
  (_evaluate_condition (py "(foo or bar) and baz") (cfg_phases 3) = Some (Ret true) /\
   _evaluate_single_condition (py "(foo or bar) and baz") (cfg_phases 3) = Ret true) /\
  _evaluate_single_condition (py "a == b == c") (cfg_phases 3) = Ret true /\
  _evaluate_single_condition (py "phases > many") (cfg_phases 3) = Ret false.
Proof.
  split; [|split].
  - apply (proj1 (fail_open_unknown_format (py "(foo or bar) and baz") (cfg_phases 3))).
    vm_compute; reflexivity.
  - apply (proj1 (proj2 (fail_open_unknown_format (py "a == b == c") (cfg_phases 3)))).
    vm_compute; reflexivity.
  - apply (proj2 (proj2 (fail_open_unknown_format (py "phases > many") (cfg_phases 3))));
      vm_compute; reflexivity.
Defined.

(** C2.  An expression built from comparisons with [and], [or] and
    parentheses is evaluated with [or] binding looser than [and], and a
    parenthesized sub-expression is evaluated on its own:
    [_evaluate_condition] on the text of an expression returns its value
    under standard precedence.  In particular [a or b and c] is
    [a or (b and c)], [a and b or c] is [(a and b) or c], and
    [(a == 1 or a == 2) and b >= 5] is true for [a] 2 and [b] 5. *)
Theorem evaluate_condition_precedence :
  (forall (d : disj) (cfg : config),
      wf_disj d = true ->
      _evaluate_condition (render_disj d) cfg = Some (disj_value cfg d)) /\
  (forall (a b c : pystr) (cfg : config),
      is_atom a = true -> is_atom b = true -> is_atom c = true ->
      _evaluate_condition (a ++ py " or " ++ b ++ py " and " ++ c) cfg =
        Some (or_outcome (_evaluate_single_condition a cfg)
                (and_outcome (_evaluate_single_condition b cfg)
                             (_evaluate_single_condition c cfg))) /\
      _evaluate_condition (a ++ py " and " ++ b ++ py " or " ++ c) cfg =
        Some (or_outcome
                (and_outcome (_evaluate_single_condition a cfg)
                             (_evaluate_single_condition b cfg))
                (_evaluate_single_condition c cfg))) /\
  _evaluate_condition (py "(a == 1 or a == 2) and b >= 5") cfg_a2_b5 = Some (Ret true).
Proof.
  assert (H : forall (d : disj) (cfg : config),
             wf_disj d = true ->
             _evaluate_condition (render_disj d) cfg = Some (disj_value cfg d)).
  { intros d cfg Hd. apply evaluate_fuel_render; [exact Hd|lia]. }
  split; [exact H|]. split; [|reflexivity].
  intros a b c cfg Ha Hb Hc. split.
  - specialize (H (DOr (DConj (CFactor (FAtom a))) (CAnd (FAtom b) (CFactor (FAtom c)))) cfg).
    cbn [render_disj render_conj render_factor disj_value conj_value factor_value
         wf_disj wf_conj wf_factor] in H.
    rewrite Ha, Hb, Hc in H. rewrite <- ?app_assoc in H. now apply H.
  - specialize (H (DOr (DConj (CAnd (FAtom a) (CFactor (FAtom b)))) (CFactor (FAtom c))) cfg).
    cbn [render_disj render_conj render_factor disj_value conj_value factor_value
         wf_disj wf_conj wf_factor] in H.
    rewrite Ha, Hb, Hc in H. rewrite <- ?app_assoc in H. now apply H.
Qed.

Lemma evaluate_condition_precedence_witness :
  _evaluate_condition
    (render_disj
       (DConj (CAnd (FParen (DOr (DConj (CFactor (FAtom (py "a == 1"))))
                                 (CFactor (FAtom (py "a == 2")))))
                    (CFactor (FAtom (py "b >= 5"))))))
    cfg_a2_b5 =
  Some (disj_value cfg_a2_b5
       (DConj (CAnd (FParen (DOr (DConj (CFactor (FAtom (py "a == 1"))))
                                 (CFactor (FAtom (py "a == 2")))))
                    (CFactor (FAtom (py "b >= 5")))))).
Proof.
  apply (proj1 evaluate_condition_precedence). vm_compute; reflexivity.
Defined.

(** C10.  [_evaluate_condition] terminates on every condition and
    configuration: it returns a result, the same for every bound above the
    length of the condition; the parenthesis loop exits; each pass of that
    loop and each recursive call works on a strictly shorter string. *)
Theorem evaluate_condition_terminates (condition : pystr) (cfg : config) :
  (exists r, _evaluate_condition condition cfg = Some r /\
     forall fuel, (length condition < fuel)%nat ->
       evaluate_fuel fuel condition cfg = Some r) /\
  (startswith condition (py "(") = true ->
     (length (strip (slice_1_m1 condition)) < length condition)%nat) /\
  (exists c', remove_outer_parens (length (strip condition)) (strip condition) = Some c' /\
     (length c' <= length condition)%nat /\
     forall or_pos and_pos, find_operators 0 0 (-1) (-1) c' = (or_pos, and_pos) ->
       (or_pos <> -1 ->
          (length (strip (slice_to c' (or_pos - 2))) < length condition)%nat /\
          (length (strip (slice_from c' (or_pos + 2))) < length condition)%nat) /\
       (and_pos <> -1 ->
          (length (strip (slice_to c' (and_pos - 2))) < length condition)%nat /\
          (length (strip (slice_from c' (and_pos + 3))) < length condition)%nat)).
Proof.
  split; [|split].
  - destruct (evaluate_fuel_enough cfg (S (length condition)) condition) as [r Hr]; [lia|].
    exists r. split; [exact Hr|]. intros fuel Hf.
    rewrite <- Hr. apply evaluate_fuel_irrel; lia.
  - apply paren_step_shorter.
  - pose proof (strip_length condition) as Hs.
    destruct (remove_outer_parens_enough (length (strip condition)) (strip condition))
      as (c' & Hc' & Hl); [lia|].
    exists c'. split; [exact Hc'|]. split; [lia|].
    intros or_pos and_pos Hf. apply split_operands_shorter in Hf as [Ho Ha].
    split; intros Hne; [destruct (Ho Hne)|destruct (Ha Hne)]; split; lia.
Qed.

Lemma evaluate_condition_terminates_witness :
  (length (strip (slice_1_m1 (py "(a == 1)"))) < length (py "(a == 1)"))%nat.
Proof.
  apply (proj1 (proj2 (evaluate_condition_terminates (py "(a == 1)") (cfg_phases 3)))).
  vm_compute; reflexivity.
Defined.

End ConditionClaims.

(** ** Register validation *)

Section ValidationClaims.

Import Validate.

Variables D1 D2 D3 D4 : dyn.

Lemma agrees_empty reg : agrees ∅ reg.
Proof. intros k v w H. rewrite lookup_empty in H. discriminate. Qed.

Lemma agrees_insert_get processed reg field default :
  agrees processed reg -> agrees (<[field := get_or reg field default]> processed) reg.
Proof.
  intros Hag k v w Hk Hr. destruct (decide (field = k)) as [->|Hne].
  - rewrite lookup_insert_eq in Hk. injection Hk as <-. unfold get_or. now rewrite Hr.
  - rewrite lookup_insert_ne in Hk by exact Hne. eauto.
Qed.

Lemma agrees_union processed reg k w :
  agrees processed reg -> reg !! k = Some w -> (processed ∪ reg) !! k = Some w.
Proof.
  intros Hag Hr. rewrite lookup_union.
  destruct (processed !! k) as [v|] eqn:Hp.
  - rewrite (Hag k v w Hp Hr), Hr. reflexivity.
  - rewrite Hr. reflexivity.
Qed.

Lemma with_defaults_agrees reg : forall processed,
  agrees processed reg -> agrees (with_defaults D1 D2 D3 D4 reg processed) reg.
Proof.
  unfold with_defaults. generalize (OPTIONAL_FIELDS D1 D2 D3 D4).
  induction l as [|[field default] l IH]; intros processed Hag; simpl; [exact Hag|].
  apply IH. destruct (negb _ && negb _); [|exact Hag].
  now apply agrees_insert_get.
Qed.

Lemma processed_lookup reg k w :
  k <> "entity_type"%string -> reg !! k = Some w ->
  forall processed,
    agrees processed reg ->
    (<["entity_type"%string :=
         DStr (determine_entity_type (with_defaults D1 D2 D3 D4 reg processed ∪ reg))]>
       (with_defaults D1 D2 D3 D4 reg processed ∪ reg)) !! k = Some w.
Proof.
  intros Hne Hr processed Hag. rewrite lookup_insert_ne by congruence.
  apply agrees_union; [|exact Hr]. now apply with_defaults_agrees.
Qed.

Lemma lt_int_spec (z n : Z) : lt_int (DInt z) n = (z <? n).
Proof.
  unfold lt_int. cbn [as_number number_compare is_lt].
  unfold Z.ltb. now destruct (z ?= n).
Qed.

Lemma validate_register_data_float (reg : pydict) (data_type : pystr) (count : Z) :
  reg !! "data_type"%string = Some (DStr data_type) ->
  reg !! "count"%string = Some (DInt count) ->
  ((data_type = py "float" \/ data_type = py "float32") /\ count < 2) \/
  (data_type = py "float64" /\ count < 4) ->
  validate_register_data reg = false.
Proof.
  intros Hdt Hcount Hsmall. unfold validate_register_data. cbv zeta.
  assert (Hg1 : get reg "data_type" = DStr data_type) by (unfold get; now rewrite Hdt).
  assert (Hg2 : get reg "count" = DInt count) by (unfold get; now rewrite Hcount).
  rewrite Hg1, Hg2.
  destruct (negb (is_int (get reg "address")) || lt_int (get reg "address") 0);
    [reflexivity|].
  destruct (negb (is_valid_data_type (DStr data_type))); [reflexivity|].
  cbn [is_none is_int negb andb orb]. rewrite (lt_int_spec count 1).
  destruct (Z.ltb_spec count 1) as [H1|H1]; [reflexivity|].
  destruct Hsmall as [[[-> | ->] Hc] | [-> Hc]].
  - change (is_float_type (DStr (py "float"))) with true.
    change (existsb (is_str (DStr (py "float"))) ["float"; "float32"]%string) with true.
    cbn [andb]. rewrite (lt_int_spec count 2).
    destruct (Z.ltb_spec count 2); [reflexivity|lia].
  - change (is_float_type (DStr (py "float32"))) with true.
    change (existsb (is_str (DStr (py "float32"))) ["float"; "float32"]%string) with true.
    cbn [andb]. rewrite (lt_int_spec count 2).
    destruct (Z.ltb_spec count 2); [reflexivity|lia].
  - change (is_float_type (DStr (py "float64"))) with true.
    change (existsb (is_str (DStr (py "float64"))) ["float"; "float32"]%string) with false.
    cbn [andb]. rewrite (lt_int_spec count 4).
    destruct (Z.ltb_spec count 4); [reflexivity|lia].
Qed.

Lemma validate_and_process_register_float (reg : pydict) (data_type : pystr) (count : Z) :
  reg !! "data_type"%string = Some (DStr data_type) ->
  reg !! "count"%string = Some (DInt count) ->
  ((data_type = py "float" \/ data_type = py "float32") /\ count < 2) \/
  (data_type = py "float64" /\ count < 4) ->
  validate_and_process_register D1 D2 D3 D4 reg = None.
Proof.
  intros Hdt Hcount Hsmall. unfold validate_and_process_register.
  destruct (negb (forallb (has_key reg) REQUIRED_FIELDS)); [reflexivity|].
  cbv zeta.
  set (base := <["count"%string := get reg "count"]>
                 (fold_left (fun acc field => <[field := get reg field]> acc)
                    REQUIRED_FIELDS ∅)).
  assert (Hbase : agrees base reg).
  { subst base. cbn [fold_left REQUIRED_FIELDS].
    apply (agrees_insert_get _ reg "count"%string DNone).
    apply (agrees_insert_get _ reg "address"%string DNone).
    apply (agrees_insert_get _ reg "name"%string DNone).
    apply agrees_empty. }
  rewrite (validate_register_data_float _ data_type count); [reflexivity| | |exact Hsmall].
  - apply processed_lookup; [discriminate|exact Hdt|exact Hbase].
  - apply processed_lookup; [discriminate|exact Hcount|exact Hbase].
Qed.

(** C8.  A register whose declared word count is below the minimum of its
    float data type (2 for float and float32, 4 for float64) is rejected
    when the template is loaded: [validate_register_data] returns [False],
    [validate_and_process_register] returns [None], and the register is
    left out of the validated registers. *)
Theorem float_word_count_enforced (reg : pydict) (data_type : pystr) (count : Z) :
  reg !! "data_type"%string = Some (DStr data_type) ->
  reg !! "count"%string = Some (DInt count) ->
  ((data_type = py "float" \/ data_type = py "float32") /\ count < 2) \/
  (data_type = py "float64" /\ count < 4) ->
  validate_register_data reg = false /\
  validate_and_process_register D1 D2 D3 D4 reg = None /\
  forall (template_name : pystr) (before after : list pydict),
    validated_registers D1 D2 D3 D4 template_name (before ++ reg :: after) =
    validated_registers D1 D2 D3 D4 template_name before ++
    validated_registers D1 D2 D3 D4 template_name after.
Proof.
  intros Hdt Hcount Hsmall.
  pose proof (validate_and_process_register_float reg data_type count Hdt Hcount Hsmall) as Hnone.
  split; [eapply validate_register_data_float; eauto|]. split; [exact Hnone|].
  intros template_name before after. unfold validated_registers.
  rewrite omap_app. cbn [omap list_omap]. now rewrite Hnone.
Qed.

End ValidationClaims.

Lemma float_word_count_enforced_witness :
  Validate.validate_register_data (Validate.float32_sensor 1) = false /\
  Validate.validate_and_process_register (DInt 30) (DInt 2) (DInt 0) (DInt 100)
    (Validate.float32_sensor 1) = None /\
  forall (template_name : pystr) (before after : list pydict),
    Validate.validated_registers (DInt 30) (DInt 2) (DInt 0) (DInt 100) template_name
      (before ++ Validate.float32_sensor 1 :: after) =
    Validate.validated_registers (DInt 30) (DInt 2) (DInt 0) (DInt 100) template_name before ++
    Validate.validated_registers (DInt 30) (DInt 2) (DInt 0) (DInt 100) template_name after.
Proof.
  apply (float_word_count_enforced (DInt 30) (DInt 2) (DInt 0) (DInt 100)
           (Validate.float32_sensor 1) (py "float32") 1).
  - reflexivity.
  - reflexivity.
  - left. split; [right; reflexivity|lia].
Defined.

(** The same register declared with two words passes the validation. *)
Example float32_two_words_accepted :
  Validate.validate_register_data (Validate.float32_sensor 2) = true.
Proof. vm_compute. reflexivity. Qed.

(** ** Writing a number entity *)

Section NumberClaims.

Import Number.

Variable call_type : Type.
Variable get_write_call_type : dyn -> dyn -> option call_type.

Lemma limit_value_events cfg h value limited warned :
  limit_value call_type cfg h value = inr (limited, warned) ->
  (warned = [] /\ limited = value) \/
  (warned = [Log LogWarning SafetyLimit] /\ exists capacity,
     battery_capacity_kwh h = Some capacity).
Proof.
  unfold limit_value.
  destruct (get_or cfg "unique_id" (DStr [])); try discriminate.
  destruct (_ && _); [|intros [= <- <-]; auto].
  destruct (battery_capacity_kwh h) as [capacity|]; [|intros [= <- <-]; auto].
  cbv zeta. destruct (PrimFloat.ltb _ value); intros [= <- <-]; eauto.
Qed.

(** The events of the body, by cases on how far it gets. *)
Lemma body_cases cfg h value :
  (forall e, In e (fst (set_value_body call_type get_write_call_type cfg h value)) -> is_pb_call e = false /\ is_refresh e = false) \/
  exists limited warned offset factor to_write count call,
    limit_value call_type cfg h value = inr (limited, warned) /\
    float_operand (get_or cfg "offset" (DFloat 0%float)) = inr offset /\
    float_operand (scale_factor cfg) = inr factor /\
    PrimFloat.is_zero factor = false /\
    register_format cfg ((limited - offset) / factor)%float = inr (to_write, count) /\
    get_write_call_type count (get cfg "write_function_code") = Some call /\
    let called := warned ++ [PbCall (get_or cfg "slave_id" (DInt 1)) (get cfg "address")
                               to_write call] in
    set_value_body call_type get_write_call_type cfg h value =
      match write_reply h with
      | Failure => (called, inl HostError)
      | Result true =>
          if refresh_raises h
          then (called ++ [RequestRefresh], inl HostError)
          else (called ++ [RequestRefresh], inr tt)
      | Result false => (called ++ [Log LogError FailedToSet], inr tt)
      end.
Proof.
  unfold set_value_body.
  destruct (limit_value call_type cfg h value) as [e|[limited warned]] eqn:Hl.
  { left. intros e' []. }
  assert (Hw : forall e, In e warned -> is_pb_call e = false /\ is_refresh e = false).
  { destruct (limit_value_events _ _ _ _ _ Hl) as [[-> _] | [-> _]]; intros e' H.
    - destruct H.
    - destruct H as [<- | []]. auto. }
  unfold scaled_value.
  destruct (float_operand (get_or cfg "offset" (DFloat 0%float))) as [e|offset];
    [left; exact Hw|].
  destruct (float_operand (scale_factor cfg)) as [e|factor]; [left; exact Hw|].
  destruct (PrimFloat.is_zero factor) eqn:Hz; [left; exact Hw|].
  destruct (register_format cfg ((limited - offset) / factor)%float)
    as [e|[to_write count]] eqn:Hf; [left; exact Hw|].
  destruct (get_write_call_type count (get cfg "write_function_code")) as [call|] eqn:Hc;
    [|left; exact Hw].
  right. exists limited, warned, offset, factor, to_write, count, call.
  repeat split; auto.
Qed.

Lemma run_events cfg h value :
  fst (async_set_native_value call_type get_write_call_type cfg h value) = ReturnsNone /\
  (forall e, is_error_log e = false ->
     (In e (snd (async_set_native_value call_type get_write_call_type cfg h value)) <-> In e (fst (set_value_body call_type get_write_call_type cfg h value)))) /\
  (forall e, In e (fst (set_value_body call_type get_write_call_type cfg h value)) -> In e (snd (async_set_native_value call_type get_write_call_type cfg h value))) /\
  (forall x, snd (set_value_body call_type get_write_call_type cfg h value) = inl x ->
     In (Log LogError (ErrorSetting x)) (snd (async_set_native_value call_type get_write_call_type cfg h value))).
Proof.
  unfold async_set_native_value.
  destruct (set_value_body call_type get_write_call_type cfg h value) as [events [e|[]]]; cbn [fst snd].
  - split; [reflexivity|]. split; [|split].
    + intros e' He'. rewrite in_app_iff. split; [|auto].
      intros [H | [<- | []]]; [exact H|discriminate].
    + intros e' H. apply in_or_app. now left.
    + intros x [= ->]. apply in_or_app. right. now left.
  - split; [reflexivity|]. split; [tauto|]. split; [auto|discriminate].
Qed.



(** C7, amended.  [async_set_native_value] requests the coordinator
    refresh exactly when it called the device and the call returned a
    truthy result; a call that returned a falsy result or raised leaves an
    error in the log; the caller gets no error in any case: the function
    returns [None]. *)
Theorem refresh_only_after_successful_write (cfg : pydict) (h : host) (value : float) :
  fst (async_set_native_value call_type get_write_call_type cfg h value) = ReturnsNone /\
  (In RequestRefresh (snd (async_set_native_value call_type get_write_call_type cfg h value)) <->
   (exists slave_id address to_write call,
       In (PbCall slave_id address to_write call)
          (snd (async_set_native_value call_type get_write_call_type cfg h value))) /\
   write_reply h = Result true) /\
  ((exists slave_id address to_write call,
       In (PbCall slave_id address to_write call)
          (snd (async_set_native_value call_type get_write_call_type cfg h value))) ->
   write_reply h <> Result true ->
   exists msg,
     In (Log LogError msg)
        (snd (async_set_native_value call_type get_write_call_type cfg h value))).
Proof.
  destruct (run_events cfg h value) as (Hdone & Hiff & Hsub & Herr).
  split; [exact Hdone|].
  destruct (body_cases cfg h value)
    as [Hnone | (limited & warned & offset & factor & w & count & c & Hl & _ & _ & _ & _ & _ & Hb)].
  - split; [split|].
    + intros Hin. apply (Hiff RequestRefresh eq_refl) in Hin.
      apply Hnone in Hin as [_ Hin]. discriminate.
    + intros [(s & a & tw & cl & Hin) _].
      apply (Hiff (PbCall s a tw cl) eq_refl) in Hin.
      apply Hnone in Hin as [Hin _]. discriminate.
    + intros (s & a & tw & cl & Hin) _.
      apply (Hiff (PbCall s a tw cl) eq_refl) in Hin.
      apply Hnone in Hin as [Hin _]. discriminate.
  - cbv zeta in Hb.
    assert (Hw : ~ In RequestRefresh warned).
    { destruct (limit_value_events _ _ _ _ _ Hl) as [[-> _] | [-> _]]; simpl; intuition discriminate. }
    assert (Hcall : In (PbCall (get_or cfg "slave_id" (DInt 1)) (get cfg "address") w c)
                       (fst (set_value_body call_type get_write_call_type cfg h value))).
    { rewrite Hb. destruct (write_reply h) as [[|]|]; [destruct (refresh_raises h)| |];
        cbn [fst]; rewrite ?in_app_iff; simpl; auto. }
    split; [split|].
    + intros Hin. split; [do 4 eexists; apply Hsub, Hcall|].
      apply (Hiff RequestRefresh eq_refl) in Hin. rewrite Hb in Hin.
      destruct (write_reply h) as [[|]|]; [reflexivity| |];
        cbn [fst] in Hin; rewrite ?in_app_iff in Hin; simpl in Hin;
        intuition discriminate.
    + intros [_ Hreply]. apply Hsub. rewrite Hb, Hreply.
      destruct (refresh_raises h); cbn [fst]; rewrite !in_app_iff; simpl; auto.
    + intros _ Hreply. destruct (write_reply h) as [[|]|] eqn:Hrep; [congruence| |].
      * exists FailedToSet. apply Hsub. rewrite Hb. cbn [fst].
        rewrite !in_app_iff. simpl. auto.
      * exists (ErrorSetting HostError). apply Herr. now rewrite Hb.
Qed.

End NumberClaims.



Lemma refresh_only_after_successful_write_witness :
  exists msg,
    In (Number.Log Number.LogError msg)
       (snd (Number.async_set_native_value Z Number.call_by_count
               Number.setpoint_config Number.host_write_fails 60%float)).
Proof.
  apply (proj2 (proj2 (refresh_only_after_successful_write Z Number.call_by_count
                         Number.setpoint_config Number.host_write_fails 60%float))).
  - exists (DInt 1), (DInt 13073), (Number.WInt 100), 6. vm_compute. left. reflexivity.
  - discriminate.
Defined.

(** C7, the claim as stated fails: when the device call returns a falsy
    result the caller is not given an error; the function logs and returns
    [None]. *)
Lemma failed_write_counterexample :
  In (Number.PbCall (DInt 1) (DInt 13073) (Number.WInt 100) 6)
     (snd (Number.async_set_native_value Z Number.call_by_count
             Number.setpoint_config Number.host_write_fails 60%float)) /\
  Number.write_reply Number.host_write_fails = Number.Result false /\
  fst (Number.async_set_native_value Z Number.call_by_count
         Number.setpoint_config Number.host_write_fails 60%float) = Number.ReturnsNone /\
  ~ (forall (cfg : pydict) (h : Number.host) (value : float),
        (exists slave_id address to_write call,
            In (Number.PbCall slave_id address to_write call)
               (snd (Number.async_set_native_value Z Number.call_by_count cfg h value))) ->
        Number.write_reply h <> Number.Result true ->
        exists e, fst (Number.async_set_native_value Z Number.call_by_count cfg h value) =
                  Number.RaisesError e).
Proof.
  assert (Hin : In (Number.PbCall (DInt 1) (DInt 13073) (Number.WInt 100) 6)
     (snd (Number.async_set_native_value Z Number.call_by_count
             Number.setpoint_config Number.host_write_fails 60%float))).
  { vm_compute. left. reflexivity. }
  split; [exact Hin|]. split; [reflexivity|]. split; [reflexivity|].
  intros H.
  destruct (H Number.setpoint_config Number.host_write_fails 60%float) as [e He].
  - eauto.
  - discriminate.
  - vm_compute in He. discriminate.
Qed.

(** ** Firmware gating and replacements *)

Section FirmwareClaims.

Import Firmware.




(** C5, at the failing input: with firmware 2.0 and the replacement keys
    1.0 and 1.05, the function returns [1.5], the canonical text of the
    highest applicable version, which is not a key of the list; the
    replacement declared for 1.05 is then not applied. *)
Theorem find_applicable_returns_canonical_text :
  _find_applicable_firmware_version (py "2.0") [py "1.0"; py "1.05"] = Some (py "1.5") /\
  existsb (str_eqb (py "1.5")) [py "1.0"; py "1.05"] = false /\
  _apply_firmware_modifications meter_sensor (py "2.0") replacements_config
    = Some meter_sensor.
Proof. vm_compute. repeat split; reflexivity. Qed.

(** The part of C5 about versions that are not semantic versions holds: the
    current version is returned exactly when it is in the list. *)
Lemma find_applicable_non_semantic (current_version : pystr) (available_versions : list pystr) :
  Pep440.parse current_version = None ->
  (In current_version available_versions ->
   _find_applicable_firmware_version current_version available_versions
     = Some current_version) /\
  (~ In current_version available_versions ->
   _find_applicable_firmware_version current_version available_versions = None).
Proof.
  intros Hp. unfold _find_applicable_firmware_version. rewrite Hp.
  assert (Hex : existsb (str_eqb current_version) available_versions = true <->
                In current_version available_versions).
  { rewrite existsb_exists. split.
    - intros (x & Hin & Heq). apply str_eqb_eq in Heq. now subst.
    - intros Hin. exists current_version. split; [exact Hin|now apply str_eqb_eq]. }
  split; intros Hin.
  - destruct available_versions; [destruct Hin|].
    apply Hex in Hin. now rewrite Hin.
  - destruct available_versions; [reflexivity|].
    destruct (existsb _ _) eqn:E; [|reflexivity].
    exfalso. apply Hin, Hex. reflexivity.
Qed.

End FirmwareClaims.


(** The two examples of the firmware gate, evaluated. *)
Example firmware_gate_examples :
  Firmware.should_include_sensor_config_flow true (Firmware.gated_sensor "2.0")
    (DStr (py "1.5")) = Some false /\
  Firmware.should_include_sensor_config_flow true (Firmware.gated_sensor "2.0")
    (DStr (py "2.1")) = Some true /\
  Firmware.should_include_sensor_template_loader Firmware.Pass true
    (Firmware.gated_sensor "2.0") (DStr (py "1.5")) = Some false /\
  Firmware.should_include_sensor_template_loader Firmware.Pass true
    (Firmware.gated_sensor "2.0") (DStr (py "2.1")) = Some true.
Proof. vm_compute. repeat split; reflexivity. Qed.

(** ** The sweep of one group *)

Section SweepFacts.

Import Optimizer.

Variables max_span max_gap : Z.
Variable key : Z * register_space.

Lemma ordered_spans_weaken lo lo' spans :
  lo' <= lo -> ordered_spans key lo spans -> ordered_spans key lo' spans.
Proof. destruct spans; simpl; intuition lia. Qed.

Lemma ordered_spans_in lo spans s :
  ordered_spans key lo spans -> In s spans ->
  (span_slave_id s, span_space s) = key /\ lo <= start_address s /\ 0 < span_word_count s.
Proof.
  revert lo; induction spans as [|x spans IH]; intros lo H Hin; [destruct Hin|].
  destruct H as (Hk & Hlo & Hpos & Hrest). destruct Hin as [<- | Hin]; [auto|].
  destruct (IH _ Hrest Hin) as (? & ? & ?). unfold span_end in *. repeat split; auto; lia.
Qed.

(** Two spans of an ordered list that cover a common register are the same
    span. *)
Lemma ordered_spans_unique lo spans s s' r :
  ordered_spans key lo spans -> 0 < word_count r ->
  In s spans -> In s' spans -> covers s r -> covers s' r -> s = s'.
Proof.
  revert lo; induction spans as [|x spans IH]; intros lo H Hr Hs Hs' Hc Hc'; [destruct Hs|].
  destruct H as (Hk & Hlo & Hpos & Hrest).
  unfold covers, reg_end in *.
  destruct Hs as [<- | Hs], Hs' as [<- | Hs'].
  - reflexivity.
  - destruct (ordered_spans_in _ _ _ Hrest Hs') as (_ & ? & _). unfold span_end in *. lia.
  - destruct (ordered_spans_in _ _ _ Hrest Hs) as (_ & ? & _). unfold span_end in *. lia.
  - eapply IH; eauto.
Qed.

Lemma sweep_state_step start end_ r rest :
  sweep_state key start end_ (r :: rest) ->
  Z.max end_ (reg_end r) = reg_end r /\
  group_key r = key /\ 0 < word_count r /\ end_ <= address r /\
  sweep_state key start (reg_end r) rest /\ sweep_state key (address r) (reg_end r) rest.
Proof.
  intros (Hlt & [Hall Hchain] & Hnext).
  apply Forall_cons_iff in Hall. destruct Hall as [[Hk Hpos] Hall].
  unfold reg_end in *.
  assert (Hrest : group_ready key rest).
  { split; [exact Hall|]. destruct rest; simpl in *; tauto. }
  assert (Hn : match rest with [] => True | r' :: _ => address r + word_count r <= address r' end).
  { destruct rest; simpl in *; tauto. }
  repeat split; auto; try lia; try (destruct Hrest; assumption).
Qed.

Lemma sweep_shape rest : forall start end_,
  sweep_state key start end_ rest ->
  exists s others,
    sweep max_span max_gap key start end_ rest = s :: others /\
    (span_slave_id s, span_space s) = key /\
    start_address s = start /\ end_ <= span_end s /\
    ordered_spans key (span_end s) others.
Proof.
  induction rest as [|r rest IH]; intros start end_ Hst.
  - exists {| span_slave_id := fst key; span_space := snd key;
              start_address := start; span_word_count := end_ - start |}, [].
    unfold span_end. simpl. destruct key. repeat split; auto; lia.
  - destruct (sweep_state_step _ _ _ _ Hst) as (Hmax & Hk & Hpos & Hnext & Hm & Hc).
    cbn [sweep]. destruct (_ && _).
    + rewrite Hmax. destruct (IH _ _ Hm) as (s & others & -> & Hks & Hs & He & Ho).
      exists s, others. unfold reg_end in *. repeat split; auto; lia.
    + destruct (IH _ _ Hc) as (s & others & -> & Hks & Hs & He & Ho).
      eexists; eexists. split; [reflexivity|].
      destruct Hst as (Hlt & _). unfold span_end, reg_end in *. cbn.
      destruct key. repeat split; auto; try lia.
Qed.

Lemma sweep_ordered start end_ rest :
  sweep_state key start end_ rest ->
  ordered_spans key start (sweep max_span max_gap key start end_ rest).
Proof.
  intros Hst. destruct (sweep_shape rest start end_ Hst) as (s & others & -> & Hk & Hs & He & Ho).
  destruct Hst as (Hlt & _). unfold span_end in *. cbn. repeat split; auto; lia.
Qed.

(** Every register of the rest is covered by a span of the result. *)
Lemma sweep_covers rest : forall start end_ r,
  sweep_state key start end_ rest -> In r rest ->
  exists s, In s (sweep max_span max_gap key start end_ rest) /\ covers s r.
Proof.
  induction rest as [|x rest IH]; intros start end_ r Hst Hin; [destruct Hin|].
  destruct (sweep_state_step _ _ _ _ Hst) as (Hmax & Hk & Hpos & Hnext & Hm & Hc).
  destruct Hst as (Hlt & _).
  cbn [sweep]. destruct (_ && _).
  - rewrite Hmax. destruct Hin as [<- | Hin]; [|now apply IH].
    destruct (sweep_shape rest _ _ Hm) as (s & others & Heq & Hks & Hs & He & _).
    exists s. rewrite Heq. split; [now left|].
    unfold covers, span_end, group_key in *. destruct key. injection Hks as <- <-.
    injection Hk as -> ->. repeat split; auto; lia.
  - destruct Hin as [<- | Hin].
    + destruct (sweep_shape rest _ _ Hc) as (s & others & Heq & Hks & Hs & He & _).
      exists s. rewrite Heq. split; [right; now left|].
      unfold covers, span_end, group_key in *. destruct key. injection Hks as <- <-.
      injection Hk as -> ->. repeat split; auto; lia.
    + destruct (IH _ _ r Hc Hin) as (s & Hs & Hcov). exists s. split; [now right|exact Hcov].
Qed.

(** No span exceeds the limit, except the span of a single register that
    is wider than the limit.  [P] tells the registers of the group. *)
Lemma sweep_span_limit (P : RegisterDefinition -> Prop) rest : forall start end_ s,
  sweep_state key start end_ rest ->
  (forall r, In r rest -> P r) ->
  (end_ - start <= max_span \/
   exists r0, P r0 /\ group_key r0 = key /\ address r0 = start /\ reg_end r0 = end_) ->
  In s (sweep max_span max_gap key start end_ rest) ->
  span_word_count s <= max_span \/
  exists r, P r /\ max_span < word_count r /\ s = span_of_register r.
Proof.
  induction rest as [|x rest IH]; intros start end_ s Hst HP Hcur Hin.
  - destruct Hin as [<- | []]. cbn.
    destruct Hcur as [Hle | (r0 & HP0 & Hk0 & Ha & He)]; [now left|].
    destruct (Z.le_gt_cases (end_ - start) max_span) as [Hle | Hgt]; [now left|].
    right. exists r0. unfold reg_end in He. split; [exact HP0|]. split; [lia|].
    unfold span_of_register, group_key in *. subst key start end_. cbn.
    f_equal. lia.
  - destruct (sweep_state_step _ _ _ _ Hst) as (Hmax & Hk & Hpos & Hnext & Hm & Hc).
    cbn [sweep] in Hin. destruct (_ && _) eqn:Hcond.
    + rewrite Hmax in Hin. apply andb_true_iff in Hcond as [_ Hspan].
      apply Z.leb_le in Hspan.
      apply (IH _ _ s Hm); [intros; apply HP; now right|now left|exact Hin].
    + destruct Hin as [<- | Hin].
      * cbn. destruct Hcur as [Hle | (r0 & HP0 & Hk0 & Ha & He)]; [now left|].
        destruct (Z.le_gt_cases (end_ - start) max_span) as [Hle | Hgt]; [now left|].
        right. exists r0. unfold reg_end in He. split; [exact HP0|]. split; [lia|].
        unfold span_of_register, group_key in *. subst key start end_. cbn.
        f_equal. lia.
      * apply (IH _ _ s Hc); [intros; apply HP; now right| |exact Hin].
        right. exists x. split; [apply HP; now left|]. auto.
Qed.

(** The current span is the only one that covers a register ending where
    it ends. *)
Lemma sweep_first_covers rest start end_ s r :
  sweep_state key start end_ rest -> In s (sweep max_span max_gap key start end_ rest) ->
  covers s r -> 0 < word_count r -> reg_end r <= end_ ->
  start_address s = start.
Proof.
  intros Hst Hin Hcov Hpos Hend.
  destruct (sweep_shape rest _ _ Hst) as (s1 & others & Heq & _ & Hs1 & He1 & Ho).
  rewrite Heq in Hin. destruct Hin as [<- | Hin]; [exact Hs1|].
  destruct (ordered_spans_in _ _ _ Ho Hin) as (_ & Hlo & _).
  unfold covers, reg_end in *. lia.
Qed.

(** Neighbours with a small enough gap are read by one span when the span
    extended to the later one stays within the limit.  [last] is the
    register the current span ends with. *)
Lemma sweep_merges rest : forall start end_ last before r1 r2 after s,
  sweep_state key start end_ rest ->
  0 < word_count last -> reg_end last = end_ ->
  last :: rest = before ++ r1 :: r2 :: after ->
  In s (sweep max_span max_gap key start end_ rest) -> covers s r1 ->
  address r2 - reg_end r1 <= max_gap -> reg_end r2 - start_address s <= max_span ->
  covers s r2.
Proof.
  induction rest as [|x rest IH];
    intros start end_ last before r1 r2 after s Hst Hlpos Hlast Heq Hin Hcov Hgap Hspan.
  { destruct before as [|? [|? ?]]; discriminate. }
  destruct (sweep_state_step _ _ _ _ Hst) as (Hmax & Hk & Hpos & Hnext & Hm & Hc).
  destruct before as [|b before].
  - injection Heq as <- <- <-.
    assert (Hstart : start_address s = start)
      by (apply (sweep_first_covers (x :: rest) start end_ s last Hst Hin Hcov Hlpos); lia).
    cbn [sweep] in Hin. destruct (_ && _) eqn:Hcond.
    + rewrite Hmax in Hin.
      destruct (sweep_shape rest _ _ Hm) as (s1 & others & Heq & Hks & Hs1 & He1 & Ho).
      rewrite Heq in Hin.
      assert (s = s1) as ->.
      { destruct Hin as [<- | Hin]; [reflexivity|].
        destruct (ordered_spans_in _ _ _ Ho Hin) as (_ & Hlo & _).
        destruct Hst as (Hlt & _). unfold span_end, reg_end in *. lia. }
      destruct Hst as (Hlt & _).
      rewrite <- Hk in Hks. unfold group_key in Hks. injection Hks as Hk1 Hk2.
      unfold covers, span_end, reg_end in *. repeat split; auto; lia.
    + apply andb_false_iff in Hcond. rewrite !Z.leb_gt in Hcond. lia.
  - injection Heq as <- Heq.
    cbn [sweep] in Hin. destruct (_ && _).
    + rewrite Hmax in Hin.
      exact (IH _ _ x before r1 r2 after s Hm Hpos eq_refl Heq Hin Hcov Hgap Hspan).
    + destruct Hin as [<- | Hin].
      * (* the emitted span ends before [x] begins; it cannot cover [r1] *)
        exfalso. assert (Hr1 : In r1 (x :: rest)) by (rewrite Heq; apply in_or_app; right; now left).
        destruct Hst as (Hlt & [Hall Hch] & _).
        assert (Hx1 : address x <= address r1).
        { clear - Heq Hch Hall. revert x rest Heq Hch Hall.
          induction before as [|b before IHb]; intros x rest Heq Hch Hall.
          - injection Heq as -> _. lia.
          - injection Heq as -> Heq. destruct rest as [|y rest]; [destruct before; discriminate|].
            destruct Hch as [Hby Hch]. apply Forall_cons_iff in Hall as [[_ Hb] Hall].
            specialize (IHb _ _ Heq Hch Hall). unfold reg_end in *. lia. }
        assert (Hp1 : 0 < word_count r1).
        { rewrite List.Forall_forall in Hall. apply (Hall r1 Hr1). }
        unfold covers, reg_end in *. cbn in Hcov. lia.
      * exact (IH _ _ x before r1 r2 after s Hc Hpos eq_refl Heq Hin Hcov Hgap Hspan).
Qed.

End SweepFacts.

(** ** The sweep stays ahead of every other cut *)

Section Minimality.

Import Optimizer.

Variables max_span max_gap : Z.

Lemma chain_tail r l : chain (r :: l) -> chain l.
Proof. destruct l; simpl; tauto. Qed.

Lemma chain_app_r a b : chain (a ++ b) -> chain b.
Proof.
  induction a as [|x a IH]; [auto|]. intros H. apply IH. exact (chain_tail _ _ H).
Qed.

Lemma chain_app_l a b : chain (a ++ b) -> chain a.
Proof.
  induction a as [|x a IH]; [exact (fun _ => I)|].
  destruct a as [|y a]; [exact (fun _ => I)|].
  intros [Hxy H]. split; [exact Hxy|]. apply IH. exact H.
Qed.

Lemma last_cons (x : RegisterDefinition) l d : List.last (x :: l) d = List.last l x.
Proof.
  revert x d; induction l as [|y l IH]; intros x d; [reflexivity|].
  change (List.last (x :: y :: l) d) with (List.last (y :: l) d).
  rewrite !IH. reflexivity.
Qed.

(** In a chain of registers of positive width every later register begins
    at or after the end of an earlier one. *)
Lemma chain_later x l :
  chain (x :: l) -> Forall (fun r => 0 < word_count r) (x :: l) ->
  forall y, In y l -> reg_end x <= address y.
Proof.
  revert x; induction l as [|z l IH]; intros x Hch Hpos y Hin; [destruct Hin|].
  destruct Hch as [Hxz Hch]. apply Forall_cons_iff in Hpos as [Hx Hpos].
  destruct Hin as [<- | Hin]; [exact Hxz|].
  specialize (IH z Hch Hpos y Hin).
  apply Forall_cons_iff in Hpos as [Hz _]. unfold reg_end in *. lia.
Qed.

Lemma chain_last_end x l :
  chain (x :: l) -> Forall (fun r => 0 < word_count r) (x :: l) ->
  reg_end x <= reg_end (List.last l x).
Proof.
  intros Hch Hpos. destruct l as [|z l]; [simpl; lia|].
  assert (Hin : In (List.last (z :: l) x) (z :: l)).
  { destruct (exists_last (l := z :: l) ltac:(discriminate)) as (l' & a & ->).
    rewrite last_last. apply in_or_app. right. now left. }
  pose proof (chain_later x _ Hch Hpos _ Hin) as H.
  rewrite List.Forall_forall in Hpos.
  assert (0 < word_count (List.last (z :: l) x)) by (apply Hpos; now right).
  unfold reg_end in *. lia.
Qed.

Lemma gaps_within_app c : forall r q,
  c <> [] -> gaps_within max_gap (c ++ r :: q) ->
  address r - reg_end (List.last c r) <= max_gap.
Proof.
  induction c as [|x c IH]; intros r q Hne H; [congruence|].
  destruct c as [|y c].
  - simpl in *. tauto.
  - change ((x :: y :: c) ++ r :: q) with (x :: (y :: c) ++ r :: q) in H.
    cbn [gaps_within app] in H. destruct H as [_ H].
    change (List.last (x :: y :: c) r) with (List.last (y :: c) r).
    apply (IH r q); [discriminate|exact H].
Qed.

Lemma last_app_cons (c : list RegisterDefinition) r q d :
  List.last (c ++ r :: q) d = List.last q r.
Proof.
  revert r; induction q as [|z q IH] using rev_ind; intros r.
  - simpl. rewrite last_last. reflexivity.
  - rewrite (app_comm_cons q [z] r), app_assoc, !last_last. reflexivity.
Qed.

(** The sweep stays ahead of any other way of cutting the rest into runs
    that respect the constraints.  [c0 :: c] is the part of the current run
    of the other strategy that has been read, [q] the rest of that run. *)
Lemma sweep_stays_ahead key rest : forall c0 c q runs start end_,
  rest = q ++ concat runs ->
  respects max_span max_gap ((c0 :: c) ++ q) -> Forall (respects max_span max_gap) runs ->
  chain ((c0 :: c) ++ rest) ->
  Forall (fun r => 0 < word_count r) ((c0 :: c) ++ rest) ->
  end_ = reg_end (List.last c c0) ->
  (address c0 <= start ->
   (length (sweep max_span max_gap key start end_ rest) <= 1 + length runs)%nat) /\
  (length (sweep max_span max_gap key start end_ rest) <= 2 + length runs)%nat.
Proof.
  induction rest as [|r t IH]; intros c0 c q runs start end_ Hrest Hrun Hruns Hch Hpos Hend.
  { simpl. split; intros; lia. }
  (* facts about [r], the next register *)
  assert (Hr_after : reg_end (List.last c c0) <= address r).
  { destruct (exists_last (l := c0 :: c) ltac:(discriminate)) as (l' & a & Hl).
    assert (Hla : List.last c c0 = a).
    { rewrite <- (last_cons c0 c c0), Hl. apply last_last. }
    rewrite Hla. rewrite Hl in Hch, Hpos. rewrite <- app_assoc in Hch, Hpos.
    apply chain_app_r in Hch. apply Forall_app in Hpos as [_ Hpos].
    apply (chain_later a _ Hch Hpos). now left. }
  assert (Hr_pos : 0 < word_count r).
  { rewrite List.Forall_forall in Hpos. apply Hpos. apply in_or_app. right. now left. }
  assert (Hc0_r : address c0 <= address r).
  { assert (H : reg_end c0 <= address r).
    { apply (chain_later c0 (c ++ r :: t) Hch Hpos). apply in_or_app. right. now left. }
    apply Forall_cons_iff in Hpos as [H0 _]. unfold reg_end in *. lia. }
  assert (Hmax : Z.max end_ (reg_end r) = reg_end r)
    by (unfold reg_end in *; lia).
  assert (Hch' : chain ((c0 :: c ++ [r]) ++ t))
    by (rewrite <- app_comm_cons, <- app_assoc; exact Hch).
  assert (Hpos' : Forall (fun r => 0 < word_count r) ((c0 :: c ++ [r]) ++ t))
    by (rewrite <- app_comm_cons, <- app_assoc; exact Hpos).
  assert (Hlast' : reg_end r = reg_end (List.last (c ++ [r]) c0))
    by (now rewrite last_last).
  cbn [sweep]. destruct q as [|r' q'].
  - (* the other strategy begins a new run at [r] *)
    destruct runs as [|run runs']; [discriminate|].
    apply Forall_cons_iff in Hruns as [Hrun1 Hruns'].
    destruct run as [|x run']; [destruct Hrun1 as [Hne _]; congruence|].
    cbn [concat app] in Hrest. injection Hrest as <- Ht.
    assert (Hch1 : chain ((r :: []) ++ t)) by (apply chain_app_r in Hch; exact Hch).
    assert (Hpos1 : Forall (fun r => 0 < word_count r) ((r :: []) ++ t))
      by (apply Forall_app in Hpos as [_ Hpos]; exact Hpos).
    destruct (_ && _).
    + rewrite Hmax.
      destruct (IH r [] run' runs' start (reg_end r) Ht Hrun1 Hruns' Hch1 Hpos1 eq_refl)
        as [_ Hb].
      cbn [length]. split; intros; lia.
    + destruct (IH r [] run' runs' (address r) (reg_end r) Ht Hrun1 Hruns' Hch1 Hpos1 eq_refl)
        as [Ha _].
      specialize (Ha (Z.le_refl _)). cbn [length]. split; intros; lia.
  - (* the other strategy extends its run with [r] *)
    cbn [app] in Hrest. injection Hrest as <- Ht.
    assert (Hrun' : respects max_span max_gap ((c0 :: c ++ [r]) ++ q'))
      by (rewrite <- app_comm_cons, <- app_assoc; exact Hrun).
    destruct (IH c0 (c ++ [r]) q' runs start (reg_end r) Ht Hrun' Hruns Hch' Hpos' Hlast')
      as [Ha Hb].
    destruct (IH c0 (c ++ [r]) q' runs (address r) (reg_end r) Ht Hrun' Hruns Hch' Hpos' Hlast')
      as [Ha' _].
    destruct (_ && _) eqn:Hcond.
    + rewrite Hmax. split; [exact Ha | exact Hb].
    + split; [|specialize (Ha' Hc0_r); cbn [length]; lia].
      intros Hstart. exfalso.
      apply andb_false_iff in Hcond. rewrite !Z.leb_gt in Hcond.
      destruct Hrun as (_ & _ & Hgaps & Hext).
      assert (Hgap : address r - reg_end (List.last (c0 :: c) r) <= max_gap)
        by (apply (gaps_within_app (c0 :: c) r q'); [discriminate|exact Hgaps]).
      rewrite last_cons in Hgap.
      destruct Hext as [Hext | [x Hx]]; [|destruct c; discriminate].
      unfold run_extent in Hext. cbn [app] in Hext.
      rewrite last_app_cons in Hext.
      assert (Hrq : reg_end r <= reg_end (List.last q' r)).
      { apply chain_last_end.
        - apply chain_app_r in Hch. rewrite Ht in Hch.
          change (r :: q' ++ concat runs) with ((r :: q') ++ concat runs) in Hch.
          exact (chain_app_l _ _ Hch).
        - rewrite Ht in Hpos. apply Forall_app in Hpos as [_ Hpos].
          change (r :: q' ++ concat runs) with ((r :: q') ++ concat runs) in Hpos.
          apply Forall_app in Hpos as [Hpos _]. exact Hpos. }
      lia.
Qed.

End Minimality.

(** ** Sorting and grouping *)

Section Grouping.

Import Optimizer.

Lemma key_eqb_eq k1 k2 : key_eqb k1 k2 = true <-> k1 = k2.
Proof.
  destruct k1 as [a x], k2 as [b y]. unfold key_eqb. cbn.
  rewrite andb_true_iff, Z.eqb_eq. split.
  - intros [-> H]. destruct x, y; try discriminate; reflexivity.
  - intros [= -> ->]. split; [reflexivity|]. destruct y; reflexivity.
Qed.

Lemma insert_by_address_perm r l : Permutation (insert_by_address r l) (r :: l).
Proof.
  induction l as [|x l IH]; simpl; [reflexivity|].
  destruct (address r <? address x); [reflexivity|].
  rewrite IH. apply perm_swap.
Qed.

Lemma sort_by_address_perm l : Permutation (sort_by_address l) l.
Proof.
  induction l as [|x l IH]; simpl; [reflexivity|].
  rewrite insert_by_address_perm. now apply perm_skip.
Qed.

Lemma sort_by_address_in r l : In r (sort_by_address l) <-> In r l.
Proof.
  split; apply Permutation_in; [|symmetry]; apply sort_by_address_perm.
Qed.

Lemma insert_by_address_sorted r l :
  address_sorted l -> address_sorted (insert_by_address r l).
Proof.
  induction l as [|x l IH]; intros H; simpl; [exact I|].
  destruct (Z.ltb_spec (address r) (address x)) as [Hlt | Hge].
  - split; [lia|exact H].
  - destruct l as [|y l]; simpl in *.
    + split; [lia|exact I].
    + destruct H as [Hxy H]. specialize (IH H).
      destruct (Z.ltb_spec (address r) (address y)); simpl in *.
      * split; [lia|]. split; [lia|exact H].
      * split; [exact Hxy|exact IH].
Qed.

Lemma sort_by_address_sorted l : address_sorted (sort_by_address l).
Proof.
  induction l as [|x l IH]; simpl; [exact I|]. now apply insert_by_address_sorted.
Qed.

Lemma filter_in {A} (f : A -> bool) (l : list A) x :
  In x (filter (fun y => f y) l) <-> In x l /\ f x = true.
Proof.
  rewrite <- !list_elem_of_In, list_elem_of_filter, Is_true_true. tauto.
Qed.

Lemma group_of_in registers key r :
  In r (group_of registers key) <-> In r registers /\ group_key r = key.
Proof.
  unfold group_of. rewrite filter_in, key_eqb_eq. intuition congruence.
Qed.

Lemma group_keys_in registers key :
  In key (group_keys registers) <-> exists r, In r registers /\ group_key r = key.
Proof.
  induction registers as [|x l IH]; simpl.
  - split; [intros []|intros (r & [] & _)].
  - rewrite filter_in, IH, negb_true_iff. split.
    + intros [<- | [(r & Hr & Hk) _]]; eauto.
    + intros (r & [<- | Hr] & Hk); [now left|].
      destruct (key_eqb (group_key x) key) eqn:E.
      * left. now apply key_eqb_eq.
      * right. eauto.
Qed.

Lemma group_keys_nodup registers : NoDup (group_keys registers).
Proof.
  induction registers as [|x l IH]; simpl; constructor.
  - rewrite list_elem_of_In, filter_in, negb_true_iff. intros [_ H].
    assert (key_eqb (group_key x) (group_key x) = true) by now apply key_eqb_eq.
    congruence.
  - now apply NoDup_filter.
Qed.

(** A sorted list of pairwise disjoint registers of positive width is a
    chain. *)
Lemma sorted_disjoint_chain l :
  address_sorted l -> NoDup l ->
  Forall (fun r => 0 < word_count r) l ->
  (forall r1 r2, In r1 l -> In r2 l -> r1 <> r2 -> disjoint_registers r1 r2) ->
  chain l.
Proof.
  induction l as [|x l IH]; intros Hs Hnd Hpos Hdis; [exact I|].
  destruct l as [|y l]; [exact I|].
  destruct Hs as [Hxy Hs]. apply NoDup_cons in Hnd as [Hnx Hnd'].
  rewrite list_elem_of_In in Hnx.
  apply Forall_cons_iff in Hpos as [Hx Hpos].
  split.
  - assert (Hne : x <> y) by (intros ->; apply Hnx; now left).
    destruct (Hdis x y ltac:(now left) ltac:(right; now left) Hne) as [H | H]; [exact H|].
    apply Forall_cons_iff in Hpos as [Hy _]. unfold reg_end in *. lia.
  - apply IH; auto. intros r1 r2 H1 H2. apply Hdis; now right.
Qed.

Lemma sorted_group_ready registers key :
  register_set registers ->
  group_ready key (sort_by_address (group_of registers key)).
Proof.
  intros (Hnd & Hpos & Hdis).
  assert (Hin : forall r, In r (sort_by_address (group_of registers key)) ->
                          In r registers /\ group_key r = key).
  { intros r Hr. apply (proj1 (sort_by_address_in _ _)) in Hr.
    exact (proj1 (group_of_in _ _ _) Hr). }
  assert (Hall : Forall (fun r => group_key r = key /\ 0 < word_count r)
                   (sort_by_address (group_of registers key))).
  { apply List.Forall_forall. intros r Hr. destruct (Hin r Hr). auto. }
  split; [exact Hall|].
  apply sorted_disjoint_chain.
  - apply sort_by_address_sorted.
  - rewrite sort_by_address_perm. now apply NoDup_filter.
  - eapply List.Forall_impl; [|exact Hall]. simpl. tauto.
  - intros r1 r2 H1 H2 Hne. destruct (Hin r1 H1), (Hin r2 H2).
    apply Hdis; auto. congruence.
Qed.

End Grouping.

(** ** The spans of one group within the result *)

Section Groups.

Import Optimizer.

Variables max_span max_gap : Z.

Lemma group_ready_state key r0 rest :
  group_ready key (r0 :: rest) ->
  group_key r0 = key /\ 0 < word_count r0 /\
  sweep_state key (address r0) (reg_end r0) rest.
Proof.
  intros [Hall Hch]. apply Forall_cons_iff in Hall as [[Hk Hw] Hall].
  split; [exact Hk|]. split; [exact Hw|].
  split; [unfold reg_end; lia|]. split.
  - split; [exact Hall|]. eapply chain_tail; exact Hch.
  - destruct rest; [exact I|]. exact (proj1 Hch).
Qed.

Lemma sweep_group_ordered key g :
  group_ready key g ->
  forall s, In s (sweep_group max_span max_gap g) ->
    (span_slave_id s, span_space s) = key /\ 0 < span_word_count s.
Proof.
  destruct g as [|r0 rest]; intros Hr s Hin; [destruct Hin|].
  destruct (group_ready_state _ _ _ Hr) as (Hk & _ & Hst).
  simpl in Hin. rewrite Hk in Hin.
  pose proof (sweep_ordered max_span max_gap key _ _ _ Hst) as Ho.
  destruct (ordered_spans_in _ _ _ _ Ho Hin) as (H1 & _ & H2). auto.
Qed.

Lemma sweep_group_covers key g r :
  group_ready key g -> In r g ->
  exists s, In s (sweep_group max_span max_gap g) /\ covers s r.
Proof.
  destruct g as [|r0 rest]; intros Hr Hin; [destruct Hin|].
  destruct (group_ready_state _ _ _ Hr) as (Hk & Hw & Hst).
  simpl. rewrite Hk. destruct Hin as [<- | Hin].
  - destruct (sweep_shape max_span max_gap key _ _ _ Hst) as (s & others & E & Hkey & Hs & He & _).
    exists s. rewrite E. split; [now left|].
    rewrite <- Hk in Hkey. unfold group_key in Hkey. injection Hkey as H1 H2.
    unfold span_end in He. rewrite Hs in He.
    unfold covers. rewrite H1, H2, Hs. repeat split; lia.
  - exact (sweep_covers max_span max_gap key _ _ _ _ Hst Hin).
Qed.

Lemma sweep_group_unique key g s s' r :
  group_ready key g -> 0 < word_count r ->
  In s (sweep_group max_span max_gap g) -> In s' (sweep_group max_span max_gap g) ->
  covers s r -> covers s' r -> s = s'.
Proof.
  destruct g as [|r0 rest]; intros Hr Hw Hin Hin'; [destruct Hin|].
  destruct (group_ready_state _ _ _ Hr) as (Hk & _ & Hst).
  simpl in Hin, Hin'. rewrite Hk in Hin, Hin'.
  pose proof (sweep_ordered max_span max_gap key _ _ _ Hst) as Ho.
  exact (ordered_spans_unique _ _ _ _ _ _ Ho Hw Hin Hin').
Qed.

Lemma optimize_in registers s :
  In s (optimize registers max_span max_gap) <->
  exists key, In key (group_keys registers) /\
    In s (sweep_group max_span max_gap (sort_by_address (group_of registers key))).
Proof.
  unfold optimize, sorted_groups. rewrite in_concat. split.
  - intros (l & Hl & Hs). apply in_map_iff in Hl as (g & <- & Hg).
    apply in_map_iff in Hg as (key & <- & Hkey). eauto.
  - intros (key & Hkey & Hs). eexists. split; [|exact Hs].
    apply in_map. apply in_map_iff. eauto.
Qed.

Lemma covering_span_group registers s r :
  register_set registers ->
  In s (optimize registers max_span max_gap) -> covers s r ->
  In s (sweep_group max_span max_gap (sort_by_address (group_of registers (group_key r)))).
Proof.
  intros Hset Hin Hcov. apply optimize_in in Hin as (key & _ & Hin).
  destruct (sweep_group_ordered key _ (sorted_group_ready _ key Hset) s Hin) as [Hk _].
  destruct Hcov as (H1 & H2 & _).
  assert (key = group_key r) as <-; [|exact Hin].
  rewrite <- Hk. unfold group_key. congruence.
Qed.

End Groups.

(** ** No strategy uses fewer spans *)

Section FewestSpans.

Import Optimizer.

Variables max_span max_gap : Z.

Lemma sweep_group_minimal key g runs :
  group_ready key g -> concat runs = g -> Forall (respects max_span max_gap) runs ->
  (length (sweep_group max_span max_gap g) <= length runs)%nat.
Proof.
  destruct g as [|r0 rest]; intros Hr Hc Hruns; [simpl; lia|].
  destruct runs as [|run runs']; [discriminate|].
  apply Forall_cons_iff in Hruns as [Hrun Hruns].
  destruct run as [|x q]; [now destruct Hrun as [[] _]|].
  simpl in Hc. injection Hc as -> Hrest.
  destruct Hr as [Hall Hch].
  assert (Hpos : Forall (fun r => 0 < word_count r) (r0 :: rest)).
  { eapply List.Forall_impl; [|exact Hall]. simpl. tauto. }
  destruct (sweep_stays_ahead max_span max_gap (group_key r0) rest r0 [] q runs'
              (address r0) (reg_end r0) (eq_sym Hrest) Hrun Hruns Hch Hpos eq_refl)
    as [H _].
  simpl. specialize (H (Z.le_refl _)). lia.
Qed.

Lemma run_prefix key run : forall A g L,
  Forall (fun r => group_key r = key) run ->
  (forall y, In y L -> group_key y <> key) ->
  run ++ A = g ++ L ->
  exists g', g = run ++ g' /\ A = g' ++ L.
Proof.
  induction run as [|a run IH]; intros A g L Hrun HL E.
  - exists g. auto.
  - apply Forall_cons_iff in Hrun as [Ha Hrun].
    destruct g as [|b g].
    + simpl in E. subst L. exfalso. apply (HL a); [now left|exact Ha].
    + simpl in E. injection E as <- E.
      destruct (IH _ _ _ Hrun HL E) as (g' & -> & ->). exists g'. auto.
Qed.

Lemma split_runs key runs : forall g L,
  Forall (fun r => group_key r = key) g ->
  (forall y, In y L -> group_key y <> key) ->
  Forall (respects max_span max_gap) runs ->
  concat runs = g ++ L ->
  exists runs1 runs2,
    runs = runs1 ++ runs2 /\ concat runs1 = g /\ concat runs2 = L.
Proof.
  induction runs as [|run runs IH]; intros g L Hg HL Hruns E.
  - simpl in E. symmetry in E. apply app_eq_nil in E as [-> ->].
    exists [], []. auto.
  - destruct g as [|x g].
    + exists [], (run :: runs). auto.
    + pose proof Hruns as Hruns0.
      apply Forall_cons_iff in Hruns as [Hrun Hruns].
      destruct Hrun as (Hne & Hsame & _).
      destruct run as [|x' run']; [congruence|].
      simpl in E. injection E as -> E'.
      pose proof Hg as Hg0. apply Forall_cons_iff in Hg as [Hx Hg].
      assert (Hkey : Forall (fun r => group_key r = key) (x :: run')).
      { apply List.Forall_forall. intros r Hr. rewrite <- Hx.
        apply Hsame; [exact Hr|now left]. }
      destruct (run_prefix key (x :: run') (concat runs) (x :: g) L Hkey HL)
        as (g' & Eg & Ec); [simpl; now rewrite E'|].
      assert (Hg' : Forall (fun r => group_key r = key) g').
      { rewrite Eg in Hg0. apply Forall_app in Hg0. tauto. }
      destruct (IH g' L Hg' HL Hruns Ec) as (runs1 & runs2 & -> & E1 & E2).
      exists ((x :: run') :: runs1), runs2. repeat split; auto.
      cbn [concat]. rewrite E1. now rewrite Eg.
Qed.

Lemma groups_minimal registers (Hset : register_set registers) : forall keys runs,
  NoDup keys ->
  Forall (respects max_span max_gap) runs ->
  concat runs =
    concat (map (fun key => sort_by_address (group_of registers key)) keys) ->
  (length (concat (map (sweep_group max_span max_gap)
             (map (fun key => sort_by_address (group_of registers key)) keys)))
   <= length runs)%nat.
Proof.
  induction keys as [|key keys IH]; intros runs Hnd Hruns E; [simpl; lia|].
  apply NoDup_cons in Hnd as [Hnk Hnd]. rewrite list_elem_of_In in Hnk.
  cbn [map concat] in E |- *.
  pose proof (sorted_group_ready registers key Hset) as Hr.
  assert (Hg : Forall (fun r => group_key r = key)
                 (sort_by_address (group_of registers key))).
  { eapply List.Forall_impl; [|exact (proj1 Hr)]. simpl. tauto. }
  assert (HL : forall y,
    In y (concat (map (fun key => sort_by_address (group_of registers key)) keys)) ->
    group_key y <> key).
  { intros y Hy. apply in_concat in Hy as (l & Hl & Hy).
    apply in_map_iff in Hl as (key' & <- & Hkey').
    apply (proj1 (sort_by_address_in _ _)) in Hy.
    apply (proj1 (group_of_in _ _ _)) in Hy as [_ ->].
    intros ->. contradiction. }
  destruct (split_runs key runs _ _ Hg HL Hruns E) as (runs1 & runs2 & -> & E1 & E2).
  apply Forall_app in Hruns as [Hr1 Hr2].
  rewrite !length_app.
  pose proof (sweep_group_minimal key _ runs1 Hr E1 Hr1).
  pose proof (IH runs2 Hnd Hr2 E2). lia.
Qed.

Lemma optimize_minimal registers runs :
  register_set registers -> strategy max_span max_gap registers runs ->
  (length (optimize registers max_span max_gap) <= length runs)%nat.
Proof.
  intros Hset [E Hruns].
  exact (groups_minimal registers Hset _ runs (group_keys_nodup registers) Hruns E).
Qed.

End FewestSpans.

(** ** The properties of the optimizer *)

Section OptimizerClaims.

Import Optimizer.

Variables max_span max_gap : Z.

Lemma register_eq_dec (r1 r2 : RegisterDefinition) : r1 = r2 \/ r1 <> r2.
Proof.
  destruct r1 as [u1 a1 p1 w1 s1], r2 as [u2 a2 p2 w2 s2].
  destruct (String.string_dec u1 u2) as [-> | ?]; [|right; congruence].
  destruct (Z.eq_dec a1 a2) as [-> | ?]; [|right; congruence].
  destruct (Z.eq_dec w1 w2) as [-> | ?]; [|right; congruence].
  destruct (Z.eq_dec s1 s2) as [-> | ?]; [|right; congruence].
  destruct p1, p2; (now left) || (right; congruence).
Qed.

Lemma optimize_covers_once registers r :
  register_set registers -> In r registers ->
  covered_once (optimize registers max_span max_gap) r.
Proof.
  intros Hset Hin.
  pose proof (sorted_group_ready registers (group_key r) Hset) as Hr.
  assert (Hg : In r (sort_by_address (group_of registers (group_key r)))).
  { apply sort_by_address_in, group_of_in. auto. }
  destruct (sweep_group_covers max_span max_gap _ _ r Hr Hg) as (s & Hs & Hcov).
  exists s. split; [|split; [exact Hcov|]].
  - apply optimize_in. exists (group_key r). split; [|exact Hs].
    apply group_keys_in. eauto.
  - intros s' Hs' Hcov'.
    apply (sweep_group_unique max_span max_gap _ _ s' s r Hr); auto.
    + destruct Hset as (_ & Hpos & _). auto.
    + now apply covering_span_group.
Qed.

Lemma optimize_within_limit registers s :
  register_set registers -> In s (optimize registers max_span max_gap) ->
  within_limit max_span registers s.
Proof.
  intros Hset Hin. apply optimize_in in Hin as (key & _ & Hin).
  pose proof (sorted_group_ready registers key Hset) as Hr.
  assert (Hsub : forall r, In r (sort_by_address (group_of registers key)) ->
                           In r registers).
  { intros r H. apply (proj1 (sort_by_address_in _ _)) in H.
    exact (proj1 (proj1 (group_of_in _ _ _) H)). }
  destruct (sort_by_address (group_of registers key)) as [|r0 rest];
    [destruct Hin|].
  destruct (group_ready_state _ _ _ Hr) as (Hk & _ & Hst).
  simpl in Hin. rewrite Hk in Hin.
  apply (sweep_span_limit max_span max_gap key (fun r => In r registers) rest _ _ s Hst); auto.
  - intros r H. apply Hsub. now right.
  - right. exists r0. repeat split; auto. apply Hsub. now left.
Qed.

Lemma optimize_keeps_wide_register registers r :
  register_set registers -> In r registers -> max_span < word_count r ->
  In (span_of_register r) (optimize registers max_span max_gap).
Proof.
  intros Hset Hin Hwide.
  destruct (optimize_covers_once registers r Hset Hin) as (s & Hs & Hcov & _).
  destruct (optimize_within_limit registers s Hset Hs) as [Hle | (r' & Hr' & _ & ->)].
  - destruct Hcov as (_ & _ & H1 & H2). unfold reg_end in H2. lia.
  - destruct (register_eq_dec r r') as [-> | Hne]; [exact Hs|].
    destruct Hset as (_ & Hpos & Hdis).
    pose proof (Hpos r Hin) as Hw. pose proof (Hpos r' Hr') as Hw'.
    destruct Hcov as (H1 & H2 & H3 & H4). cbn in H1, H2, H3, H4.
    assert (Hk : group_key r = group_key r') by (unfold group_key; congruence).
    destruct (Hdis r r' Hin Hr' Hne Hk) as [Hd | Hd]; unfold reg_end in *; lia.
Qed.

Lemma optimize_merges_neighbours registers key r1 r2 s :
  register_set registers -> neighbours registers key r1 r2 ->
  address r2 - reg_end r1 <= max_gap ->
  In s (optimize registers max_span max_gap) -> covers s r1 ->
  reg_end r2 - start_address s <= max_span ->
  covers s r2.
Proof.
  intros Hset (before & after & Heq) Hgap Hin Hcov Hspan.
  pose proof (sorted_group_ready registers key Hset) as Hr.
  assert (Hk1 : group_key r1 = key).
  { assert (H : In r1 (sort_by_address (group_of registers key))).
    { rewrite Heq. apply in_or_app. right. now left. }
    apply (proj1 (sort_by_address_in _ _)) in H.
    exact (proj2 (proj1 (group_of_in _ _ _) H)). }
  pose proof (covering_span_group max_span max_gap registers s r1 Hset Hin Hcov) as Hs.
  rewrite Hk1 in Hs.
  destruct (sort_by_address (group_of registers key)) as [|r0 rest];
    [destruct before; discriminate|].
  destruct (group_ready_state _ _ _ Hr) as (Hk & Hw & Hst).
  simpl in Hs. rewrite Hk in Hs.
  exact (sweep_merges max_span max_gap key rest _ _ r0 before r1 r2 after s Hst Hw eq_refl Heq
           Hs Hcov Hgap Hspan).
Qed.

End OptimizerClaims.

(** ** The range optimizer: the claim *)

Section OptimizerResult.

Import Optimizer.

(** C9 (amended).  For every register set (no register twice, positive
    widths, no two registers of a group sharing a word) and all parameters:
    every register is covered by exactly one span of the result; every span
    is within [max_span_words] or is the span of a single register that is
    itself wider, and such a register always gets that span of its own; two
    neighbours whose gap is at most [max_gap_words] are in the same span
    whenever the span reaching to the end of the second stays within
    [max_span_words]; the empty register set gives no span; and no strategy
    that respects the two limits uses fewer spans. *)
Theorem optimizer_properties (registers : list RegisterDefinition) (max_span max_gap : Z) :
  register_set registers ->
  (forall r, In r registers -> covered_once (optimize registers max_span max_gap) r) /\
  (forall s, In s (optimize registers max_span max_gap) -> within_limit max_span registers s) /\
  (forall r, In r registers -> max_span < word_count r ->
     In (span_of_register r) (optimize registers max_span max_gap)) /\
  (forall key r1 r2 s,
     neighbours registers key r1 r2 -> address r2 - reg_end r1 <= max_gap ->
     In s (optimize registers max_span max_gap) -> covers s r1 ->
     reg_end r2 - start_address s <= max_span ->
     covers s r2) /\
  optimize [] max_span max_gap = [] /\
  (forall runs, strategy max_span max_gap registers runs ->
     (length (optimize registers max_span max_gap) <= length runs)%nat).
Proof.
  intros Hset. repeat apply conj.
  - intros r Hr. exact (optimize_covers_once max_span max_gap registers r Hset Hr).
  - intros s Hs. exact (optimize_within_limit max_span max_gap registers s Hset Hs).
  - intros r Hr Hw. exact (optimize_keeps_wide_register max_span max_gap registers r Hset Hr Hw).
  - intros key r1 r2 s Hn Hgap Hs Hcov Hspan.
    exact (optimize_merges_neighbours max_span max_gap registers key r1 r2 s Hset Hn Hgap Hs Hcov Hspan).
  - reflexivity.
  - intros runs Hruns. exact (optimize_minimal max_span max_gap registers runs Hset Hruns).
Qed.

Lemma chain_disjoint (registers : list RegisterDefinition) :
  Forall (fun r => 0 < word_count r) registers -> chain registers ->
  forall r1 r2, In r1 registers -> In r2 registers -> r1 <> r2 ->
    disjoint_registers r1 r2.
Proof.
  induction registers as [|x l IH]; intros Hpos Hch r1 r2 H1 H2 Hne; [destruct H1|].
  pose proof (chain_later x l Hch Hpos) as Hlater.
  apply Forall_cons_iff in Hpos as [Hx Hpos].
  destruct H1 as [<- | H1], H2 as [<- | H2].
  - congruence.
  - left. auto.
  - right. auto.
  - apply IH; auto. eapply chain_tail; exact Hch.
Qed.

Lemma chain_register_set (registers : list RegisterDefinition) :
  NoDup registers ->
  Forall (fun r => 0 < word_count r) registers ->
  chain registers ->
  register_set registers.
Proof.
  intros Hnd Hpos Hch. split; [exact Hnd|]. split.
  - apply List.Forall_forall. exact Hpos.
  - intros r1 r2 H1 H2 Hne _. exact (chain_disjoint registers Hpos Hch r1 r2 H1 H2 Hne).
Qed.

Lemma example_register_set : register_set example_registers.
Proof.
  apply chain_register_set.
  - unfold example_registers, reg.
    repeat (apply NoDup_cons; split;
            [rewrite list_elem_of_In; simpl; intuition discriminate|]).
    apply NoDup_nil. exact I.
  - repeat constructor.
  - simpl. unfold reg_end. simpl. lia.
Qed.

Lemma tight_register_set : register_set tight_registers.
Proof.
  apply chain_register_set.
  - unfold tight_registers, reg.
    repeat (apply NoDup_cons; split;
            [rewrite list_elem_of_In; simpl; intuition discriminate|]).
    apply NoDup_nil. exact I.
  - repeat constructor.
  - simpl. unfold reg_end. simpl. lia.
Qed.

(** The example of the specification: registers at 10 and 11 of one word and
    at 20 of two words, [max_span_words = 20], [max_gap_words = 5], are read
    by the spans (10, 2) and (20, 2). *)
Example optimize_example :
  optimize example_registers 20 5 = [span 10 2; span 20 2].
Proof. reflexivity. Qed.

(** The two runs of the example are a strategy, so the bound on the number
    of spans is not an empty statement there. *)
Example example_strategy :
  strategy 20 5 example_registers
    [[reg "r10" 10 1; reg "r11" 11 1]; [reg "r20" 20 2]].
Proof.
  split; [reflexivity|].
  apply Forall_cons_iff. split; [|apply Forall_cons_iff; split; [|apply Forall_nil; exact I]].
  - split; [discriminate|]. split.
    + intros r r' [<- | [<- | []]] [<- | [<- | []]]; reflexivity.
    + split; [split; [vm_compute; discriminate|exact I]|].
      left. vm_compute. discriminate.
  - split; [discriminate|]. split.
    + intros r r' [<- | []] [<- | []]; reflexivity.
    + split; [exact I|]. right. eexists. reflexivity.
Qed.

Lemma optimizer_properties_witness :
  register_set example_registers /\
  (forall r, In r example_registers ->
     covered_once (optimize example_registers 20 5) r) /\
  (forall s, In s (optimize example_registers 20 5) ->
     within_limit 20 example_registers s) /\
  (forall r, In r example_registers -> 20 < word_count r ->
     In (span_of_register r) (optimize example_registers 20 5)) /\
  (forall key r1 r2 s,
     neighbours example_registers key r1 r2 -> address r2 - reg_end r1 <= 5 ->
     In s (optimize example_registers 20 5) -> covers s r1 ->
     reg_end r2 - start_address s <= 20 ->
     covers s r2) /\
  optimize [] 20 5 = [] /\
  (forall runs, strategy 20 5 example_registers runs ->
     (length (optimize example_registers 20 5) <= length runs)%nat).
Proof.
  split.
  - exact example_register_set.
  - apply (optimizer_properties example_registers 20 5). exact example_register_set.
Defined.

(** C9, the claim as stated fails twice.  Two registers of ten words at 0
    and at 10 have a gap of 0, within [max_gap_words = 5], yet with
    [max_span_words = 15] they are read by two spans: the span limit stops
    the merge.  And where registers share words, a register of 30 words at
    0 and one of 20 words at 5 with [max_span_words = 20], the second
    register lies within two spans of the result. *)
Lemma optimizer_properties_counterexample :
  (register_set tight_registers /\
   optimize tight_registers 15 5 = [span 0 10; span 10 10] /\
   neighbours tight_registers (1, Holding) (reg "low" 0 10) (reg "high" 10 10) /\
   address (reg "high" 10 10) - reg_end (reg "low" 0 10) <= 5 /\
   covers (span 0 10) (reg "low" 0 10) /\
   ~ covers (span 0 10) (reg "high" 10 10) /\
   ~ (forall registers max_span max_gap key r1 r2 s,
        register_set registers ->
        neighbours registers key r1 r2 -> address r2 - reg_end r1 <= max_gap ->
        In s (optimize registers max_span max_gap) -> covers s r1 -> covers s r2)) /\
  (optimize overlapping_registers 20 5 = [span 0 30; span 5 20] /\
   In (reg "inner" 5 20) overlapping_registers /\
   covers (span 0 30) (reg "inner" 5 20) /\
   covers (span 5 20) (reg "inner" 5 20) /\
   ~ covered_once (optimize overlapping_registers 20 5) (reg "inner" 5 20)).
Proof.
  assert (Hn : neighbours tight_registers (1, Holding) (reg "low" 0 10) (reg "high" 10 10)).
  { exists [], []. reflexivity. }
  assert (Hc : covers (span 0 10) (reg "low" 0 10)).
  { unfold covers, reg_end. cbn. repeat split; lia. }
  assert (Hnc : ~ covers (span 0 10) (reg "high" 10 10)).
  { intros (_ & _ & _ & H). unfold reg_end in H. cbn in H. lia. }
  split.
  - split; [exact tight_register_set|]. split; [reflexivity|].
    split; [exact Hn|]. split; [unfold reg_end; cbn; lia|].
    split; [exact Hc|]. split; [exact Hnc|].
    intros H. apply Hnc.
    apply (H tight_registers 15 5 (1, Holding) (reg "low" 0 10) (reg "high" 10 10)
             (span 0 10) tight_register_set Hn).
    + unfold reg_end. cbn. lia.
    + left. reflexivity.
    + exact Hc.
  - split; [reflexivity|]. split; [right; left; reflexivity|].
    assert (H1 : covers (span 0 30) (reg "inner" 5 20))
      by (unfold covers, reg_end; cbn; repeat split; lia).
    assert (H2 : covers (span 5 20) (reg "inner" 5 20))
      by (unfold covers, reg_end; cbn; repeat split; lia).
    split; [exact H1|]. split; [exact H2|].
    intros (s & _ & _ & Huniq).
    assert (E1 : span 0 30 = s) by (apply Huniq; [left; reflexivity|exact H1]).
    assert (E2 : span 5 20 = s) by (apply Huniq; [right; left; reflexivity|exact H2]).
    rewrite <- E2 in E1. discriminate E1.
Qed.

End OptimizerResult.
